(** * API.js: the two request helpers [get] and [post]

    The file under verification is [src/API.js].  It defines two functions,

      - [get(url)], which wraps an [XMLHttpRequest] GET in a [Promise], and
      - [post(url, data)], which serialises [data] with [JSON.stringify],
        wraps an [XMLHttpRequest] POST in a [Promise] and sends the text.

    Both install one [onload] handler that resolves the promise with
    [{ status: http.status, data: JSON.parse(http.response) }].

    The development has three layers:

      - [JSON]: the text format, a parser ([JSON.parse]) and a serialiser
        ([JSON.stringify]) following ECMA-262 sections 25.5.1 and 25.5.2;
      - the platform objects the two functions use: promises, requests
        ([XMLHttpRequest]) and the delivery of network events;
      - [get] and [post] themselves, transcribed statement by statement,
        and the theorems about them. *)

From Stdlib Require Import ZArith NArith String Ascii Lia.
From stdpp Require Import base option list numbers strings gmap.

Set Warnings "-register-all".
Local Open Scope N_scope.

(** ** Strings

    A JavaScript string is a sequence of 16-bit code units.  Code units are
    numbers here, so that every four-digit escape of a JSON text has a value. *)

Abbreviation jsstring := (list N).

(** [utf16 s] is the string whose code units are the characters of [s];
    [json_text s] is the same with every apostrophe read as a quotation
    mark, which keeps JSON texts legible: [json_text "{'score':5}"] is the
    text [{"score":5}]. *)
Fixpoint utf16 (s : string) : jsstring :=
  match s with
  | EmptyString => []
  | String a s' => N_of_ascii a :: utf16 s'
  end.

Definition json_text (s : string) : jsstring :=
  map (fun c => if c =? 39 then 34 else c) (utf16 s).

(** ** Exceptions and completions *)

Inductive exn :=
  | SyntaxError
  | TypeError
  | RangeError
  | InvalidStateError.

Inductive outcome (A : Type) :=
  | Return (a : A)
  | Throw (e : exn).
Arguments Return {A} a.
Arguments Throw {A} e.

Global Instance exn_eq_dec : EqDecision exn.
Proof. solve_decision. Defined.

(** ** Numbers

    A finite number is kept as its exact decimal value
    [(-1)^neg * mant * 10^expo]; a zero keeps its sign, so [-0] is a value.
    The rounding of a literal to the nearest IEEE-754 double is not
    modelled: a literal denotes its mathematical value, however many
    digits it has and however large its exponent is. *)

Record decimal := Decimal { neg : bool; mant : N; expo : Z }.

Inductive number :=
  | NaN
  | Infinity (negative : bool)
  | Finite (d : decimal).

Definition decimal_of_Z (z : Z) : decimal :=
  Decimal (Z.ltb z 0) (Z.abs_N z) 0.

(** ** JSON values, as [JSON.parse] builds them

    The objects and arrays [JSON.parse] creates are fresh and unshared, so
    they are trees.  The members of an object are listed in the order of
    its own property keys. *)

Inductive json :=
  | JNull
  | JBool (b : bool)
  | JNumber (d : decimal)
  | JString (s : jsstring)
  | JArray (elements : list json)
  | JObject (members : list (jsstring * json)).

Module JSON.

(** *** Lexical helpers *)

Definition QUOTE : N := 34.
Definition BACKSLASH : N := 92.

Definition is_ws (c : N) : bool :=
  (c =? 32) || (c =? 9) || (c =? 10) || (c =? 13).

Fixpoint skip_ws (s : jsstring) : jsstring :=
  match s with
  | c :: t => if is_ws c then skip_ws t else s
  | [] => []
  end.

Definition is_digit (c : N) : bool := (48 <=? c) && (c <=? 57).

Fixpoint take_digits (s : jsstring) : jsstring * jsstring :=
  match s with
  | c :: t =>
      if is_digit c then let '(ds, r) := take_digits t in (c :: ds, r)
      else ([], s)
  | [] => ([], [])
  end.

(** The value of a run of decimal digits. *)
Definition of_digits (ds : jsstring) : N :=
  fold_left (fun acc c => 10 * acc + (c - 48)) ds 0.

(** The decimal digits of a number, most significant first. *)
Fixpoint to_digits_aux (fuel : nat) (m : N) (acc : jsstring) : jsstring :=
  match fuel with
  | O => acc
  | S f =>
      let acc' := (48 + m mod 10) :: acc in
      if m <? 10 then acc' else to_digits_aux f (m / 10) acc'
  end.

Definition to_digits (m : N) : jsstring :=
  to_digits_aux (S (N.size_nat m)) m [].

(** Trailing zeros carry no information in a mantissa. *)
Fixpoint drop_zeros (s : jsstring) : jsstring :=
  match s with
  | c :: t => if c =? 48 then drop_zeros t else s
  | [] => []
  end.

Definition strip_trailing_zeros (ds : jsstring) : jsstring :=
  rev (drop_zeros (rev ds)).

(** The number with digits [ds] (most significant first) scaled by
    [10^e], in canonical form: the mantissa is not a multiple of ten, and
    zero has exponent zero. *)
Definition decimal_of_digits (sign : bool) (ds : jsstring) (e : Z) : decimal :=
  let ds' := strip_trailing_zeros ds in
  let m := of_digits ds' in
  if m =? 0 then Decimal sign 0 0
  else Decimal sign m (e + Z.of_nat (length ds) - Z.of_nat (length ds'))%Z.

Definition hex_value (c : N) : option N :=
  if is_digit c then Some (c - 48)
  else if (97 <=? c) && (c <=? 102) then Some (c - 87)
  else if (65 <=? c) && (c <=? 70) then Some (c - 55)
  else None.

Definition hex4 (a b c d : N) : option N :=
  match hex_value a, hex_value b, hex_value c, hex_value d with
  | Some x, Some y, Some z, Some w => Some (4096 * x + 256 * y + 16 * z + w)
  | _, _, _, _ => None
  end.

(** The character a one-letter escape stands for. *)
Definition simple_escape (c : N) : option N :=
  if c =? 34 then Some 34            (* quotation mark *)
  else if c =? 92 then Some 92       (* reverse solidus *)
  else if c =? 47 then Some 47       (* solidus *)
  else if c =? 98 then Some 8        (* b: backspace *)
  else if c =? 102 then Some 12      (* f: form feed *)
  else if c =? 110 then Some 10      (* n: line feed *)
  else if c =? 114 then Some 13      (* r: carriage return *)
  else if c =? 116 then Some 9       (* t: tab *)
  else None.

(** *** Parse results

    [PFuel] is the recursion bound of the parser being reached; it is kept
    apart from [PError] and shown below never to be the answer of
    [JSON.parse]. *)

Inductive presult (A : Type) :=
  | POk (a : A) (rest : jsstring)
  | PError
  | PFuel.
Arguments POk {A} a rest.
Arguments PError {A}.
Arguments PFuel {A}.

Definition pmap {A B} (f : A -> B) (r : presult A) : presult B :=
  match r with
  | POk a rest => POk (f a) rest
  | PError => PError
  | PFuel => PFuel
  end.

(** The characters of a string literal, after its opening quotation mark,
    up to and including the closing one. *)
Fixpoint parse_chars (s : jsstring) : presult jsstring :=
  match s with
  | [] => PError
  | c :: t =>
      if c =? QUOTE then POk [] t
      else if c =? BACKSLASH then
        match t with
        | [] => PError
        | e :: t1 =>
            if e =? 117 then
              match t1 with
              | h1 :: h2 :: h3 :: h4 :: t2 =>
                  match hex4 h1 h2 h3 h4 with
                  | Some u => pmap (cons u) (parse_chars t2)
                  | None => PError
                  end
              | _ => PError
              end
            else
              match simple_escape e with
              | Some u => pmap (cons u) (parse_chars t1)
              | None => PError
              end
        end
      else if c <? 32 then PError
      else pmap (cons c) (parse_chars t)
  end.

(** The optional fraction of a number: a point and at least one digit. *)
Definition parse_frac (s : jsstring) : presult jsstring :=
  match s with
  | c :: t =>
      if c =? 46 then
        match take_digits t with
        | ([], _) => PError
        | (fs, r) => POk fs r
        end
      else POk [] s
  | [] => POk [] s
  end.

(** The optional exponent: [e] or [E], an optional sign, at least one
    digit. *)
Definition parse_exp (s : jsstring) : presult Z :=
  match s with
  | c :: t =>
      if (c =? 101) || (c =? 69) then
        let '(sign, t') :=
          match t with
          | x :: u =>
              if x =? 45 then (true, u)
              else if x =? 43 then (false, u)
              else (false, t)
          | [] => (false, t)
          end in
        match take_digits t' with
        | ([], _) => PError
        | (es, r) =>
            let v := Z.of_N (of_digits es) in
            POk (if sign then (- v)%Z else v) r
        end
      else POk 0%Z s
  | [] => POk 0%Z s
  end.

(** A number: an optional minus, an integer part without superfluous
    leading zero, a fraction, an exponent. *)
Definition parse_number (s : jsstring) : presult decimal :=
  let '(sign, s1) :=
    match s with
    | c :: t => if c =? 45 then (true, t) else (false, s)
    | [] => (false, s)
    end in
  match take_digits s1 with
  | ([], _) => PError
  | (i :: more, s2) =>
      if (i =? 48) && negb (length more =? 0)%nat then PError
      else
        match parse_frac s2 with
        | POk fs s3 =>
            match parse_exp s3 with
            | POk e s4 =>
                POk (decimal_of_digits sign ((i :: more) ++ fs)
                       (e - Z.of_nat (length fs))%Z) s4
            | PError => PError
            | PFuel => PFuel
            end
        | PError => PError
        | PFuel => PFuel
        end
  end.

(** [expect w s] reads the literal name [w] ([null], [true], [false]). *)
Fixpoint expect (w s : jsstring) : option jsstring :=
  match w, s with
  | [], _ => Some s
  | a :: w', b :: s' => if a =? b then expect w' s' else None
  | _ :: _, [] => None
  end.

(** *** Objects under construction

    [JSON.parse] adds each member with CreateDataProperty.  A key that is
    already present keeps its place and takes the new value; a new key that
    is an array index (the canonical decimal form of an integer below
    [2^32 - 1]) goes among the index keys in ascending order, ahead of all
    other keys; any other new key goes last. *)

Definition array_index (k : jsstring) : option N :=
  match k with
  | [] => None
  | c :: t =>
      if forallb is_digit k
         && negb ((c =? 48) && negb (length t =? 0)%nat)
         && (length k <=? 10)%nat
         && (of_digits k <=? 4294967294)
      then Some (of_digits k)
      else None
  end.

Fixpoint has_key {A} (k : jsstring) (ms : list (jsstring * A)) : bool :=
  match ms with
  | (k', _) :: t => bool_decide (k = k') || has_key k t
  | [] => false
  end.

Fixpoint set_member {A} (k : jsstring) (v : A) (ms : list (jsstring * A))
  : list (jsstring * A) :=
  match ms with
  | (k', v') :: t =>
      if bool_decide (k = k') then (k', v) :: t
      else (k', v') :: set_member k v t
  | [] => []
  end.

Fixpoint insert_index {A} (n : N) (k : jsstring) (v : A)
    (ms : list (jsstring * A)) : list (jsstring * A) :=
  match ms with
  | (k', v') :: t =>
      match array_index k' with
      | Some n' =>
          if n' <? n then (k', v') :: insert_index n k v t
          else (k, v) :: ms
      | None => (k, v) :: ms
      end
  | [] => [(k, v)]
  end.

Definition define_property {A} (k : jsstring) (v : A)
    (ms : list (jsstring * A)) : list (jsstring * A) :=
  if has_key k ms then set_member k v ms
  else
    match array_index k with
    | Some n => insert_index n k v ms
    | None => ms ++ [(k, v)]
    end.

Definition build_object {A} (ms : list (jsstring * A)) : list (jsstring * A) :=
  fold_left (fun o kv => define_property (fst kv) (snd kv) o) ms [].

(** *** The parser

    [parse_value] reads one JSON value at the head of [s];
    [parse_elements] reads the elements of an array after its bracket,
    [parse_members] the members of an object after its brace, both up to
    and including the closing character. *)

Fixpoint parse_value (fuel : nat) (s : jsstring) : presult json :=
  match fuel with
  | O => PFuel
  | S f =>
      match s with
      | [] => PError
      | c :: t =>
          if c =? 123 then                                   (* { *)
            match skip_ws t with
            | c' :: t' =>
                if c' =? 125 then POk (JObject []) t'
                else pmap (fun ms => JObject (build_object ms))
                          (parse_members f (c' :: t'))
            | [] => PError
            end
          else if c =? 91 then                               (* [ *)
            match skip_ws t with
            | c' :: t' =>
                if c' =? 93 then POk (JArray []) t'
                else pmap JArray (parse_elements f (c' :: t'))
            | [] => PError
            end
          else if c =? QUOTE then pmap JString (parse_chars t)
          else if c =? 110 then                              (* null *)
            match expect (utf16 "ull") t with
            | Some r => POk JNull r
            | None => PError
            end
          else if c =? 116 then                              (* true *)
            match expect (utf16 "rue") t with
            | Some r => POk (JBool true) r
            | None => PError
            end
          else if c =? 102 then                              (* false *)
            match expect (utf16 "alse") t with
            | Some r => POk (JBool false) r
            | None => PError
            end
          else pmap JNumber (parse_number s)
      end
  end
with parse_elements (fuel : nat) (s : jsstring) : presult (list json) :=
  match fuel with
  | O => PFuel
  | S f =>
      match parse_value f (skip_ws s) with
      | POk v r =>
          match skip_ws r with
          | c :: r' =>
              if c =? 44 then pmap (cons v) (parse_elements f r')
              else if c =? 93 then POk [v] r'
              else PError
          | [] => PError
          end
      | PError => PError
      | PFuel => PFuel
      end
  end
with parse_members (fuel : nat) (s : jsstring)
  : presult (list (jsstring * json)) :=
  match fuel with
  | O => PFuel
  | S f =>
      match skip_ws s with
      | q :: s1 =>
          if q =? QUOTE then
            match parse_chars s1 with
            | POk k s2 =>
                match skip_ws s2 with
                | c :: s3 =>
                    if c =? 58 then
                      match parse_value f (skip_ws s3) with
                      | POk v r =>
                          match skip_ws r with
                          | c' :: r' =>
                              if c' =? 44 then
                                pmap (cons (k, v)) (parse_members f r')
                              else if c' =? 125 then POk [(k, v)] r'
                              else PError
                          | [] => PError
                          end
                      | PError => PError
                      | PFuel => PFuel
                      end
                    else PError
                | [] => PError
                end
            | PError => PError
            | PFuel => PFuel
            end
          else PError
      | [] => PError
      end
  end.

(** [JSON.parse(text)]: one value with white space around it and nothing
    else; anything else is a [SyntaxError].  The recursion bound is twice
    the length of the text (plus two), which [parse_within_bound] shows to
    be enough. *)
Definition parse_fuel (text : jsstring) : nat := (2 * length text + 2)%nat.

Definition parse (text : jsstring) : outcome json :=
  match parse_value (parse_fuel text) (skip_ws text) with
  | POk v rest =>
      match skip_ws rest with
      | [] => Return v
      | _ :: _ => Throw SyntaxError
      end
  | PError => Throw SyntaxError
  | PFuel => Throw RangeError
  end.

(** *** Values handed to [JSON.stringify]

    The argument of [post] is an arbitrary JavaScript value.  Objects live
    in a heap and are referred to by address, so that a value can be shared
    or cyclic.  An object is a function, an array, or a plain object whose
    own enumerable string-keyed data properties are listed in key order.
    Accessor properties, [toJSON] methods, exotic and boxed objects are
    outside the fragment. *)

Abbreviation addr := nat.

Inductive value :=
  | VUndefined
  | VNull
  | VBool (b : bool)
  | VNumber (n : number)
  | VBigInt (z : Z)
  | VString (s : jsstring)
  | VSymbol
  | VObject (a : addr).

Inductive object :=
  | OFunction
  | OArray (elements : list value)
  | OPlain (members : list (jsstring * value)).

Abbreviation heap := (list object).

(** *** QuoteJSONString *)

Definition hex_digit (n : N) : N := if n <? 10 then 48 + n else 87 + n.

Definition UnicodeEscape (c : N) : jsstring :=
  [BACKSLASH; 117; hex_digit (c / 4096 mod 16); hex_digit (c / 256 mod 16);
   hex_digit (c / 16 mod 16); hex_digit (c mod 16)].

Definition is_leading_surrogate (c : N) : bool :=
  (55296 <=? c) && (c <=? 56319).
Definition is_trailing_surrogate (c : N) : bool :=
  (56320 <=? c) && (c <=? 57343).

(** One code point that is not a surrogate. *)
Definition quote_unit (c : N) : jsstring :=
  if c =? 8 then [BACKSLASH; 98]
  else if c =? 9 then [BACKSLASH; 116]
  else if c =? 10 then [BACKSLASH; 110]
  else if c =? 12 then [BACKSLASH; 102]
  else if c =? 13 then [BACKSLASH; 114]
  else if c =? 34 then [BACKSLASH; 34]
  else if c =? 92 then [BACKSLASH; 92]
  else if c <? 32 then UnicodeEscape c
  else [c].

(** The code points of the string in turn: a leading surrogate followed by
    a trailing one is a pair and is copied; a surrogate on its own is
    escaped. *)
Fixpoint quote_units (s : jsstring) : jsstring :=
  match s with
  | [] => []
  | c :: t =>
      if is_leading_surrogate c then
        match t with
        | c2 :: t2 =>
            if is_trailing_surrogate c2 then c :: c2 :: quote_units t2
            else UnicodeEscape c ++ quote_units t
        | [] => UnicodeEscape c
        end
      else if is_trailing_surrogate c then UnicodeEscape c ++ quote_units t
      else quote_unit c ++ quote_units t
  end.

Definition QuoteJSONString (s : jsstring) : jsstring :=
  QUOTE :: quote_units s ++ [QUOTE].

(** *** Number::toString, radix 10

    With [k] significant digits and the decimal point after the [n]-th of
    them: plain digits and zeros when [k <= n <= 21], a point inside when
    [0 < n <= 21], leading [0.] and zeros when [-6 < n <= 0], exponent
    notation otherwise.  Both zeros print as [0]. *)

Definition zeros (n : nat) : jsstring := replicate n 48.

Definition NumberToString (d : decimal) : jsstring :=
  let ds0 := to_digits (mant d) in
  match strip_trailing_zeros ds0 with
  | [] => [48]
  | first :: more =>
      let ds := first :: more in
      let k := Z.of_nat (length ds) in
      let n := (Z.of_nat (length ds0) + expo d)%Z in
      let body :=
        if ((k <=? n) && (n <=? 21))%Z then ds ++ zeros (Z.to_nat (n - k))
        else if ((0 <? n) && (n <=? 21))%Z then
          take (Z.to_nat n) ds ++ 46 :: drop (Z.to_nat n) ds
        else if ((-6 <? n) && (n <=? 0))%Z then
          48 :: 46 :: zeros (Z.to_nat (- n)) ++ ds
        else
          let e := (n - 1)%Z in
          let exponent :=
            101 :: (if (e <? 0)%Z then 45 else 43) :: to_digits (Z.abs_N e) in
          match more with
          | [] => first :: exponent
          | _ :: _ => first :: 46 :: more ++ exponent
          end in
      if neg d then 45 :: body else body
  end.

(** *** SerializeJSONProperty *)

Inductive sresult :=
  | SText (s : jsstring)
  | SUndefined
  | SThrow (e : exn)
  | SFuel.

(** The elements of an array: [undefined] is written [null]. *)
Fixpoint serialize_elements (rec : value -> sresult) (vs : list value)
  : outcome (option (list jsstring)) :=
  match vs with
  | [] => Return (Some [])
  | v :: t =>
      match rec v with
      | SThrow e => Throw e
      | SFuel => Return None
      | r =>
          let item := match r with SText s => s | _ => utf16 "null" end in
          match serialize_elements rec t with
          | Return (Some items) => Return (Some (item :: items))
          | other => other
          end
      end
  end.

(** The members of an object: a property whose value is [undefined] is
    left out. *)
Fixpoint serialize_members (rec : value -> sresult)
    (ms : list (jsstring * value)) : outcome (option (list jsstring)) :=
  match ms with
  | [] => Return (Some [])
  | (k, v) :: t =>
      match rec v with
      | SThrow e => Throw e
      | SFuel => Return None
      | r =>
          match serialize_members rec t with
          | Return (Some items) =>
              Return (Some
                match r with
                | SText s => (QuoteJSONString k ++ 58 :: s) :: items
                | _ => items
                end)
          | other => other
          end
      end
  end.

Fixpoint join_commas (items : list jsstring) : jsstring :=
  match items with
  | [] => []
  | [x] => x
  | x :: rest => x ++ 44 :: join_commas rest
  end.

Definition bracket (open close : N) (r : outcome (option (list jsstring)))
  : sresult :=
  match r with
  | Return (Some items) => SText (open :: join_commas items ++ [close])
  | Return None => SFuel
  | Throw e => SThrow e
  end.

(** [stack] is the list of the objects being serialised; meeting one of
    them again is the cyclic-structure [TypeError].  An address outside the
    heap, which no JavaScript value holds, is treated as a value without
    JSON form. *)
Fixpoint SerializeJSONProperty (h : heap) (fuel : nat) (stack : list addr)
    (v : value) : sresult :=
  match fuel with
  | O => SFuel
  | S f =>
      match v with
      | VNull => SText (utf16 "null")
      | VBool true => SText (utf16 "true")
      | VBool false => SText (utf16 "false")
      | VString s => SText (QuoteJSONString s)
      | VNumber (Finite d) => SText (NumberToString d)
      | VNumber _ => SText (utf16 "null")
      | VBigInt _ => SThrow TypeError
      | VUndefined | VSymbol => SUndefined
      | VObject a =>
          match h !! a with
          | Some OFunction => SUndefined
          | Some (OArray vs) =>
              if bool_decide (a ∈ stack) then SThrow TypeError
              else bracket 91 93
                     (serialize_elements
                        (SerializeJSONProperty h f (a :: stack)) vs)
          | Some (OPlain ms) =>
              if bool_decide (a ∈ stack) then SThrow TypeError
              else bracket 123 125
                     (serialize_members
                        (SerializeJSONProperty h f (a :: stack)) ms)
          | None => SUndefined
          end
      end
  end.

(** [JSON.stringify(value)] in heap [h]: the text, or [undefined] ([None])
    for a value that has no JSON form, or an exception.  An acyclic chain
    of objects is no longer than the heap, which bounds the recursion:
    [stringify_within_bound] shows the bound is never met. *)
Definition stringify (h : heap) (v : value) : outcome (option jsstring) :=
  match SerializeJSONProperty h (S (length h)) [] v with
  | SText s => Return (Some s)
  | SUndefined => Return None
  | SThrow e => Throw e
  | SFuel => Throw RangeError
  end.

(** *** Notions used to relate the serialiser and the parser *)

(** A serialised value is followed, in the text of an array or of an
    object, by a comma or by the closing character; at the top it is
    followed by nothing. *)
Definition delimited (rest : jsstring) : Prop :=
  match rest with
  | [] => True
  | c :: _ => c = 44 \/ c = 93 \/ c = 125
  end.

(** A run of decimal digits. *)
Definition digits (ds : jsstring) : Prop :=
  Forall (fun c => is_digit c = true) ds.

(** A number text: sign, integer part, fraction, exponent. *)
Definition number_text (sign : bool) (int fs : jsstring)
    (ex : option (bool * jsstring)) : jsstring :=
  (if sign then [45] else []) ++ int ++
  match fs with [] => [] | _ :: _ => 46 :: fs end ++
  match ex with
  | None => []
  | Some (s, es) => 101 :: (if s then 45 else 43) :: es
  end.

(** The value of the exponent part: a sign ([true] for minus) and digits. *)
Definition exponent_value (ex : option (bool * jsstring)) : Z :=
  match ex with
  | None => 0
  | Some (s, es) =>
      if s then (- Z.of_N (of_digits es))%Z else Z.of_N (of_digits es)
  end.

(** The integer part is [0] or starts with another digit; the fraction
    and the digits of the exponent, when present, are digits. *)
Definition well_formed_number (int fs : jsstring)
    (ex : option (bool * jsstring)) : Prop :=
  digits int /\
  match int with
  | [] => False
  | [_] => True
  | c :: _ :: _ => c <> 48
  end /\
  digits fs /\
  match ex with None => True | Some (_, es) => digits es /\ es <> [] end.

(** [accepted text]: [text] starts with a character that is neither white
    space nor a closing bracket or brace, and the parser, given fuel for
    twice its length, reads it as one value and stops at what follows. *)
Definition accepted (text : jsstring) : Prop :=
  match text with
  | [] => False
  | c :: _ => is_ws c = false /\ c <> 93 /\ c <> 125
  end /\
  exists j, forall f rest,
    (2 * length text + 1 <= f)%nat -> delimited rest ->
    parse_value f (text ++ rest) = POk j rest.

(** A member of an object: the quoted key, a colon, the value. *)
Definition member_text (kv : jsstring * jsstring) : jsstring :=
  QuoteJSONString (fst kv) ++ 58 :: snd kv.

End JSON.

(** ** The platform: promises, requests, the network

    The two functions run in a world made of the heap of ordinary objects,
    the promises and the [XMLHttpRequest] objects created so far (a
    reference is an index), the requests handed to the network, and the
    exceptions that left an event handler uncaught. *)

(** The value both promises resolve with: [{ status, data }]. *)
Record Response := { status : Z; data : json }.

Inductive promise_state :=
  | Pending
  | Fulfilled (value : Response)
  | Rejected (reason : exn).

Abbreviation promise := nat.
Abbreviation xhr := nat.

(** The two functions an executor receives. *)
Record resolve_function := ResolveOf { resolved_promise : promise }.
Record reject_function := RejectOf { rejected_promise : promise }.

(** The function expressions of [API.js] that outlive the call creating
    them, each with the variables it captures: the [onload] handler of
    [get] (lines 23-25) and the one of [post] (lines 66-68). *)
Inductive closure :=
  | get_onload (resolve : resolve_function) (http : xhr)
  | post_onload (resolve : resolve_function) (http : xhr).

(** What [send()] hands to the network. *)
Record request := {
  method : string;
  url : string;
  headers : list (string * string);
  body : option jsstring
}.

Module XHR.

Inductive state := UNSENT | OPENED | DONE.

Record t := {
  readyState : state;
  send_flag : bool;
  request_method : string;
  request_url : string;
  author_request_headers : list (string * string);
  status : Z;
  response : jsstring;
  onload : option closure
}.

Definition unsent : t :=
  {| readyState := UNSENT; send_flag := false;
     request_method := ""; request_url := "";
     author_request_headers := [];
     status := 0; response := []; onload := None |}.

Global Instance state_eq_dec : EqDecision state.
Proof. solve_decision. Defined.

End XHR.

Record world := {
  heap_of : JSON.heap;
  promises : list promise_state;
  xhrs : list XHR.t;
  wire : list request;
  uncaught : list exn
}.

Definition initial (h : JSON.heap) : world :=
  {| heap_of := h; promises := []; xhrs := []; wire := []; uncaught := [] |}.

Definition set_promises (f : list promise_state -> list promise_state)
    (w : world) : world :=
  {| heap_of := heap_of w; promises := f (promises w); xhrs := xhrs w;
     wire := wire w; uncaught := uncaught w |}.

Definition set_xhrs (f : list XHR.t -> list XHR.t) (w : world) : world :=
  {| heap_of := heap_of w; promises := promises w; xhrs := f (xhrs w);
     wire := wire w; uncaught := uncaught w |}.

Definition set_wire (f : list request -> list request) (w : world) : world :=
  {| heap_of := heap_of w; promises := promises w; xhrs := xhrs w;
     wire := f (wire w); uncaught := uncaught w |}.

Definition set_uncaught (f : list exn -> list exn) (w : world) : world :=
  {| heap_of := heap_of w; promises := promises w; xhrs := xhrs w;
     wire := wire w; uncaught := f (uncaught w) |}.

Definition set_heap (h : JSON.heap) (w : world) : world :=
  {| heap_of := h; promises := promises w; xhrs := xhrs w;
     wire := wire w; uncaught := uncaught w |}.

(** *** Computations: a state and exception monad over the world *)

Definition M (A : Type) : Type := world -> outcome A * world.

Global Instance M_ret : MRet M := fun A a w => (Return a, w).
Global Instance M_bind : MBind M := fun A B k m w =>
  match m w with
  | (Return a, w') => k a w'
  | (Throw e, w') => (Throw e, w')
  end.

Definition throw {A} (e : exn) : M A := fun w => (Throw e, w).
Definition lift {A} (o : outcome A) : M A := fun w => (o, w).
Definition modify (f : world -> world) : M unit := fun w => (Return tt, f w).

(** *** Promises *)

(** A promise is settled once: resolving or rejecting a promise that is no
    longer pending does nothing.  The value [get] and [post] resolve with
    is a fresh object without a [then] property, so resolving fulfils. *)
Definition settle (p : promise) (s : promise_state) (w : world) : world :=
  match promises w !! p with
  | Some Pending => set_promises (<[p := s]>) w
  | _ => w
  end.

Definition call_resolve (f : resolve_function) (v : Response) : M unit :=
  modify (settle (resolved_promise f) (Fulfilled v)).

Definition call_reject (f : reject_function) (e : exn) : M unit :=
  modify (settle (rejected_promise f) (Rejected e)).

(** [new Promise(executor)]: the executor runs at once, and an exception
    it throws rejects the promise. *)
Definition Promise
    (executor : resolve_function -> reject_function -> M unit) : M promise :=
  fun w =>
    let p := length (promises w) in
    let w1 := set_promises (fun ps => ps ++ [Pending]) w in
    match executor (ResolveOf p) (RejectOf p) w1 with
    | (Return _, w2) => (Return p, w2)
    | (Throw e, w2) => (Return p, settle p (Rejected e) w2)
    end.

(** *** XMLHttpRequest *)

Definition new_XMLHttpRequest : M xhr :=
  fun w => (Return (length (xhrs w)),
            set_xhrs (fun hs => hs ++ [XHR.unsent]) w).

(** Reading or writing a property of a request object. *)
Definition read (http : xhr) : M XHR.t :=
  fun w =>
    match xhrs w !! http with
    | Some o => (Return o, w)
    | None => (Throw TypeError, w)
    end.

Definition write (http : xhr) (o : XHR.t) : M unit :=
  modify (set_xhrs (<[http := o]>)).

(** [http.onload = handler] *)
Definition set_onload (http : xhr) (handler : closure) : M unit :=
  o ← read http;
  write http
    {| XHR.readyState := XHR.readyState o; XHR.send_flag := XHR.send_flag o;
       XHR.request_method := XHR.request_method o;
       XHR.request_url := XHR.request_url o;
       XHR.author_request_headers := XHR.author_request_headers o;
       XHR.status := XHR.status o; XHR.response := XHR.response o;
       XHR.onload := Some handler |}.

(** [http.open(method, url)].  The url is taken to be one the platform can
    parse, as the documented parameter ([the url of the API plus the API
    path]) is. *)
Definition open (http : xhr) (method url : string) : M unit :=
  o ← read http;
  write http
    {| XHR.readyState := XHR.OPENED; XHR.send_flag := false;
       XHR.request_method := method; XHR.request_url := url;
       XHR.author_request_headers := [];
       XHR.status := 0; XHR.response := [];
       XHR.onload := XHR.onload o |}.

Definition can_send (o : XHR.t) : bool :=
  bool_decide (XHR.readyState o = XHR.OPENED) && negb (XHR.send_flag o).

(** [http.setRequestHeader(name, value)] *)
Definition setRequestHeader (http : xhr) (name value : string) : M unit :=
  o ← read http;
  if can_send o then
    write http
      {| XHR.readyState := XHR.readyState o; XHR.send_flag := XHR.send_flag o;
         XHR.request_method := XHR.request_method o;
         XHR.request_url := XHR.request_url o;
         XHR.author_request_headers :=
           XHR.author_request_headers o ++ [(name, value)];
         XHR.status := XHR.status o; XHR.response := XHR.response o;
         XHR.onload := XHR.onload o |}
  else throw InvalidStateError.

(** [http.send(body)]: a GET or HEAD request carries no body. *)
Definition send (http : xhr) (data : option jsstring) : M unit :=
  o ← read http;
  if can_send o then
    let m := XHR.request_method o in
    let b :=
      if bool_decide (m = "GET") || bool_decide (m = "HEAD") then None
      else data in
    write http
      {| XHR.readyState := XHR.readyState o; XHR.send_flag := true;
         XHR.request_method := m; XHR.request_url := XHR.request_url o;
         XHR.author_request_headers := XHR.author_request_headers o;
         XHR.status := XHR.status o; XHR.response := XHR.response o;
         XHR.onload := XHR.onload o |};;
    modify (set_wire (fun rs => rs ++
      [{| method := m; url := XHR.request_url o;
          headers := XHR.author_request_headers o; body := b |}]))
  else throw InvalidStateError.

(** ** The source: [API.js] *)

(** Lines 23-25 and 66-68: the body of an [onload] handler,
    [resolve({ status: http.status, data: JSON.parse(http.response) })]. *)
Definition call (handler : closure) : M unit :=
  match handler with
  | get_onload resolve http =>
      o ← read http;
      let status := XHR.status o in
      data ← lift (JSON.parse (XHR.response o));
      call_resolve resolve {| status := status; data := data |}
  | post_onload resolve http =>
      o ← read http;
      let status := XHR.status o in
      data ← lift (JSON.parse (XHR.response o));
      call_resolve resolve {| status := status; data := data |}
  end.

(** Lines 20-29. *)
Definition get (url : string) : M promise :=
  Promise (fun resolve reject =>
    http ← new_XMLHttpRequest;
    set_onload http (get_onload resolve http);;
    open http "GET" url;;
    send http None).

(** Lines 62-74. *)
Definition post (url : string) (data : JSON.value) : M promise :=
  data ← (fun w => lift (JSON.stringify (heap_of w) data) w);
  Promise (fun resolve reject =>
    http ← new_XMLHttpRequest;
    set_onload http (post_onload resolve http);;
    open http "POST" url;;
    setRequestHeader http "Content-Type" "application/json";;
    send http data).

(** ** Network events

    A request that was sent ends with exactly one of four events.  [Load]
    is the completion of the exchange, whatever the status code: the
    status and the body become readable and the [onload] handler runs.
    For the other three (a network error, a timeout, an abort) no [load]
    event is fired.  An exception that escapes the handler is reported,
    not propagated. *)

Inductive event :=
  | Load (status : Z) (body : jsstring)
  | NetworkError
  | Timeout
  | Aborted.

Definition finish (o : XHR.t) (s : Z) (b : jsstring) : XHR.t :=
  {| XHR.readyState := XHR.DONE; XHR.send_flag := false;
     XHR.request_method := XHR.request_method o;
     XHR.request_url := XHR.request_url o;
     XHR.author_request_headers := XHR.author_request_headers o;
     XHR.status := s; XHR.response := b; XHR.onload := XHR.onload o |}.

Definition deliver (http : xhr) (ev : event) (w : world) : world :=
  match xhrs w !! http with
  | Some o =>
      if XHR.send_flag o then
        match ev with
        | Load s b =>
            let w1 := set_xhrs (<[http := finish o s b]>) w in
            match XHR.onload o with
            | Some handler =>
                match call handler w1 with
                | (Return _, w2) => w2
                | (Throw e, w2) => set_uncaught (fun es => es ++ [e]) w2
                end
            | None => w1
            end
        | _ => set_xhrs (<[http := finish o 0 []]>) w
        end
      else w
  | None => w
  end.

(** ** Programs

    What can happen in a page that uses the two functions: calls of [get]
    and [post], deliveries of network events, and changes other code makes
    to the heap. *)

Inductive invocation :=
  | Get (url : string)
  | Post (url : string) (data : JSON.value).

Definition invoke (i : invocation) : M promise :=
  match i with
  | Get u => get u
  | Post u d => post u d
  end.

Inductive action :=
  | Call (i : invocation)
  | Deliver (http : xhr) (ev : event)
  | Mutate (h : JSON.heap).

Definition step (w : world) (a : action) : world :=
  match a with
  | Call i => snd (invoke i w)
  | Deliver x ev => deliver x ev w
  | Mutate h => set_heap h w
  end.

Definition run (acts : list action) (w : world) : world :=
  fold_left step acts w.

(** [quiet x acts]: no event is delivered to request [x] during [acts]. *)
Definition quiet (x : xhr) (acts : list action) : bool :=
  forallb (fun a => match a with
                    | Deliver y _ => negb (Nat.eqb y x)
                    | _ => true
                    end) acts.

(** [loadless x acts]: no [Load] event is delivered to [x] during [acts];
    errors, timeouts and aborts may be. *)
Definition loadless (x : xhr) (acts : list action) : bool :=
  forallb (fun a => match a with
                    | Deliver y (Load _ _) => negb (Nat.eqb y x)
                    | _ => true
                    end) acts.

(** The request object the next call of [get] or [post] creates. *)
Definition next_xhr (w : world) : xhr := length (xhrs w).

(** The state of a promise. *)
Definition state_of (p : promise) (w : world) : option promise_state :=
  promises w !! p.

(** ** A pass-through backend

    The backend keeps, for each url, the body last posted to it.  It
    answers a POST with the body it received and a GET with the body it
    holds (the empty text when it holds none); [code] is the status code
    it gives each answer. *)

Definition echo (code : request -> Z) (db : gmap string (list N))
    (r : request) : gmap string (list N) * event :=
  if bool_decide (method r = "POST") then
    let text := default [] (body r) in
    (<[url r := text]> db, Load (code r) text)
  else (db, Load (code r) (default [] (db !! url r))).

(** The backend answers the request last put on the wire, and the answer
    reaches the request object [http]. *)
Definition serve (code : request -> Z) (http : xhr)
    (st : gmap string (list N) * world) : gmap string (list N) * world :=
  match last (wire (snd st)) with
  | Some r => (fst (echo code (fst st) r),
               deliver http (snd (echo code (fst st) r)) (snd st))
  | None => st
  end.

(** [post(url, X)], its answer, then [get(url)] and its answer: the state
    of the promise of [get] at the end. *)
Definition post_then_get (code : request -> Z) (db : gmap string (list N))
    (u : string) (X : JSON.value) (w : world) : option promise_state :=
  match post u X w with
  | (Return _, w1) =>
      let st2 := serve code (next_xhr w) (db, w1) in
      match get u (snd st2) with
      | (Return p, w3) =>
          state_of p (snd (serve code (next_xhr (snd st2)) (fst st2, w3)))
      | (Throw _, _) => None
      end
  | (Throw _, _) => None
  end.

(** ** Notions used in the proofs

    The request object a call leaves behind and the world after the call;
    the invariant of reachable worlds; what it means for a call to be
    waiting for its answer; what an event does to the promise. *)

(** The request object after [open], the headers and [send]. *)
Definition sent (m u : string) (hs : list (string * string)) (c : closure)
  : XHR.t :=
  {| XHR.readyState := XHR.OPENED; XHR.send_flag := true;
     XHR.request_method := m; XHR.request_url := u;
     XHR.author_request_headers := hs;
     XHR.status := 0; XHR.response := []; XHR.onload := Some c |}.

(** The world after a call: one more promise, pending; one more request
    object; one more request on the wire. *)
Definition after_call (w : world) (o : XHR.t) (r : request) : world :=
  {| heap_of := heap_of w; promises := promises w ++ [Pending];
     xhrs := xhrs w ++ [o]; wire := wire w ++ [r];
     uncaught := uncaught w |}.

(** The header [post] sets. *)
Definition json_headers : list (string * string) :=
  [("Content-Type", "application/json")].

(** The handler of the [i]-th request object is one of the two closures of
    [API.js], capturing the [i]-th promise and the [i]-th request object. *)
Definition owns (i : nat) (o : XHR.t) : Prop :=
  XHR.onload o = Some (get_onload (ResolveOf i) i) \/
  XHR.onload o = Some (post_onload (ResolveOf i) i).

(** The invariant of reachable worlds: every call creates one promise and
    one request object, in step, so the two stores have the same length,
    and every request object has its own handler. *)
Record consistent (w : world) : Prop := {
  same_length : length (promises w) = length (xhrs w);
  own_handler : forall i o, xhrs w !! i = Some o -> owns i o
}.

(** [waiting x w]: the [x]-th promise is pending and the [x]-th request is
    in flight. *)
Definition waiting (x : nat) (w : world) : Prop :=
  promises w !! x = Some Pending /\
  exists o, xhrs w !! x = Some o /\ XHR.send_flag o = true.

(** [pending x w]: the [x]-th promise is pending, whatever became of the
    request. *)
Definition pending (x : nat) (w : world) : Prop :=
  promises w !! x = Some Pending /\ is_Some (xhrs w !! x).

(** The action delivers an event to request [x]. *)
Definition touches (x : nat) (a : action) : bool :=
  match a with
  | Deliver y _ => Nat.eqb y x
  | _ => false
  end.

(** The action delivers a [Load] event to request [x]. *)
Definition loads (x : nat) (a : action) : bool :=
  match a with
  | Deliver y (Load _ _) => Nat.eqb y x
  | _ => false
  end.

(** What the completion of a request in flight does to its promise. *)
Definition completion (s : Z) (b : jsstring) : promise_state :=
  match JSON.parse b with
  | Return d => Fulfilled {| status := s; data := d |}
  | Throw _ => Pending
  end.

(** The exception, if any, that the completion lets escape the handler. *)
Definition escaping (b : jsstring) : list exn :=
  match JSON.parse b with
  | Return _ => []
  | Throw e => [e]
  end.

(** What an event does to the promise of a request in flight, and the
    exceptions it leaves uncaught. *)
Definition outcome_of (ev : event) : promise_state * list exn :=
  match ev with
  | Load s b => (completion s b, escaping b)
  | _ => (Pending, [])
  end.

(** ** Values used in the examples *)

Section Examples.
Import JSON.

(** [{ id: "alice", score: 5 }] *)
Definition alice : json :=
  JObject [(utf16 "id", JString (utf16 "alice"));
           (utf16 "score", JNumber (decimal_of_Z 5))].

(** [{ Error: "bad score" }] *)
Definition bad_score : json :=
  JObject [(utf16 "Error", JString (utf16 "bad score"))].

(** A heap holding [{ score: 5 }] at address 0. *)
Definition score_heap : heap :=
  [OPlain [(utf16 "score", VNumber (Finite (decimal_of_Z 5)))]].

(** A heap holding, at address 0, an object [o] with [o.self === o]. *)
Definition cyclic_heap : heap :=
  [OPlain [(utf16 "self", VObject 0)]].

(** Some earlier activity: a [get] whose request failed, and a [post]
    still in flight. *)
Definition earlier : list action :=
  [Call (Get "https://example.com/bob"); Deliver 0 NetworkError;
   Call (Post "https://example.com/bob" (VObject 0))].

End Examples.

(** ** Notions used in the further properties *)

(** The state the promise of a request object is in: pending while the
    request is in flight, then what the completion made of it. *)
Definition promise_of (o : XHR.t) : promise_state :=
  if XHR.send_flag o then Pending
  else completion (XHR.status o) (XHR.response o).

(** Every request object is in flight or done, and its promise is in the
    state that goes with it. *)
Definition explained (w : world) : Prop :=
  forall i o, xhrs w !! i = Some o ->
    XHR.readyState o = (if XHR.send_flag o then XHR.OPENED else XHR.DONE) /\
    promises w !! i = Some (promise_of o).

(** The two kinds of request [API.js] sends: a GET without headers or
    body, and a POST announcing JSON. *)
Definition api_request (r : request) : Prop :=
  (method r = "GET" /\ headers r = [] /\ body r = None) \/
  (method r = "POST" /\ headers r = [("Content-Type", "application/json")]).


(** ** JSON data

    The values for which the round trip through [post] and [get] is exact:
    a JavaScript value that holds a JSON tree, with the tree in the form
    [JSON.parse] itself produces. *)

Module Data.
Import JSON.

Global Instance decimal_eq_dec : EqDecision decimal.
Proof. solve_decision. Defined.




(** The number a [Number] reads back as after it was printed: the same
    number, but for the zero with a sign, which prints as [0]. *)
Definition unsigned_zero (d : decimal) : decimal :=
  if mant d =? 0 then Decimal false 0 0 else d.



End Data.



(** * Properties *)

(** ** Lists used as stores *)

Section Stores.
Context {A : Type}.
Implicit Types (l : list A) (x y : A).

Lemma lookup_snoc l x : (l ++ [x]) !! length l = Some x.
Proof. by rewrite lookup_app_r, Nat.sub_diag. Qed.

Lemma insert_snoc l x y : <[length l := y]> (l ++ [x]) = l ++ [y].
Proof.
  rewrite insert_app_r_alt by lia. by rewrite Nat.sub_diag.
Qed.

Lemma lookup_snoc_lt l x i : (i < length l)%nat -> (l ++ [x]) !! i = l !! i.
Proof. intros. by rewrite lookup_app_l. Qed.
End Stores.

(** ** What a call does to the world *)

Lemma get_unfold u w :
  get u w =
  (Return (length (promises w)),
   after_call w
     (sent "GET" u [] (get_onload (ResolveOf (length (promises w))) (next_xhr w)))
     {| method := "GET"; url := u; headers := []; body := None |}).
Proof.
  unfold get, Promise, new_XMLHttpRequest, set_onload, open, send, read,
    write, modify, mbind, M_bind, next_xhr, after_call; simpl.
  repeat (unfold set_wire, set_xhrs, set_promises;
          rewrite ?lookup_snoc, ?insert_snoc; simpl).
  reflexivity.
Qed.

Lemma post_unfold u d w :
  post u d w =
  match JSON.stringify (heap_of w) d with
  | Throw e => (Throw e, w)
  | Return text =>
      (Return (length (promises w)),
       after_call w
         (sent "POST" u json_headers
            (post_onload (ResolveOf (length (promises w))) (next_xhr w)))
         {| method := "POST"; url := u; headers := json_headers;
            body := text |})
  end.
Proof.
  unfold post, mbind, M_bind, lift.
  destruct (JSON.stringify (heap_of w) d) as [text|e]; [|reflexivity].
  unfold Promise, new_XMLHttpRequest, set_onload, open, send,
    setRequestHeader, read, write, modify, mbind, M_bind, next_xhr,
    after_call; simpl.
  repeat (unfold set_wire, set_xhrs, set_promises;
          rewrite ?lookup_snoc, ?insert_snoc; simpl).
  reflexivity.
Qed.

(** ** The invariant of reachable worlds *)

Lemma owns_finish i o s b : owns i o -> owns i (finish o s b).
Proof. unfold owns, finish; simpl; tauto. Qed.

Lemma consistent_initial h : consistent (initial h).
Proof. split; simpl; [reflexivity | intros i o H; destruct i; discriminate H]. Qed.

Lemma consistent_after_call w o r :
  consistent w -> owns (next_xhr w) o -> consistent (after_call w o r).
Proof.
  intros [Hlen Hown] Ho. split; simpl.
  - rewrite !length_app, Hlen. reflexivity.
  - intros i o' Hi. destruct (decide (i < length (xhrs w))%nat) as [Hlt|Hge].
    + rewrite lookup_snoc_lt in Hi by assumption. eauto.
    + assert (i = length (xhrs w)) as ->.
      { apply lookup_lt_Some in Hi. rewrite length_app in Hi. simpl in Hi. lia. }
      rewrite lookup_snoc in Hi. injection Hi as <-. exact Ho.
Qed.

Lemma settle_promises p s w :
  promises (settle p s w) =
  match promises w !! p with
  | Some Pending => <[p := s]> (promises w)
  | _ => promises w
  end.
Proof. unfold settle. destruct (promises w !! p) as [[]|]; reflexivity. Qed.

Lemma settle_rest p s w :
  heap_of (settle p s w) = heap_of w /\ xhrs (settle p s w) = xhrs w /\
  wire (settle p s w) = wire w /\ uncaught (settle p s w) = uncaught w.
Proof. unfold settle. destruct (promises w !! p) as [[]|]; auto. Qed.

Lemma settle_length p s w :
  length (promises (settle p s w)) = length (promises w).
Proof.
  rewrite settle_promises.
  destruct (promises w !! p) as [[]|]; rewrite ?length_insert; reflexivity.
Qed.

(** The delivery of a [Load] event, in closed form: the handler reads the
    status and the body just stored, parses the body, and either resolves
    the promise or lets the exception escape. *)
Lemma deliver_load x s b w o :
  xhrs w !! x = Some o -> XHR.send_flag o = true -> owns x o ->
  deliver x (Load s b) w =
  let w1 := set_xhrs (<[x := finish o s b]>) w in
  match JSON.parse b with
  | Return d => settle x (Fulfilled {| status := s; data := d |}) w1
  | Throw e => set_uncaught (fun es => es ++ [e]) w1
  end.
Proof.
  intros Hx Hs Ho. unfold deliver. rewrite Hx, Hs.
  assert (set_xhrs <[x:=finish o s b]> w
            = set_xhrs <[x:=finish o s b]> w) as _ by reflexivity.
  assert (xhrs (set_xhrs <[x:=finish o s b]> w) !! x = Some (finish o s b)) as Hl.
  { simpl. apply list_lookup_insert_eq. eapply lookup_lt_Some, Hx. }
  destruct Ho as [-> | ->]; unfold call, read, mbind, M_bind, lift,
    call_resolve, modify; rewrite Hl; simpl;
    destruct (JSON.parse b); reflexivity.
Qed.

(** The other three events run no handler. *)
Lemma deliver_failure x ev w o :
  xhrs w !! x = Some o -> XHR.send_flag o = true ->
  (forall s b, ev <> Load s b) ->
  deliver x ev w = set_xhrs (<[x := finish o 0 []]>) w.
Proof.
  intros Hx Hs Hev. unfold deliver. rewrite Hx, Hs.
  destruct ev; try reflexivity. exfalso. eapply Hev. reflexivity.
Qed.

Lemma deliver_idle x ev w :
  (forall o, xhrs w !! x = Some o -> XHR.send_flag o = false) ->
  deliver x ev w = w.
Proof.
  intros H. unfold deliver. destruct (xhrs w !! x) as [o|]; [|reflexivity].
  rewrite (H o eq_refl). reflexivity.
Qed.

(** A delivery to [x] leaves every other promise and request object as it
    was, and keeps the invariant. *)
Lemma deliver_effect x ev w :
  consistent w ->
  consistent (deliver x ev w) /\
  heap_of (deliver x ev w) = heap_of w /\
  wire (deliver x ev w) = wire w /\
  forall y, y <> x ->
    promises (deliver x ev w) !! y = promises w !! y /\
    xhrs (deliver x ev w) !! y = xhrs w !! y.
Proof.
  intros Hc. destruct (xhrs w !! x) as [o|] eqn:Hx.
  2: { rewrite deliver_idle by (intros o Ho; congruence). auto. }
  destruct (XHR.send_flag o) eqn:Hs.
  2: { rewrite deliver_idle by (intros o' Ho; congruence). auto. }
  pose proof (own_handler _ Hc _ _ Hx) as Ho.
  assert (forall s b, consistent (set_xhrs <[x:=finish o s b]> w)) as Hc1.
  { intros s b. split; simpl.
    - rewrite length_insert. apply Hc.
    - intros i o' Hi. destruct (decide (i = x)) as [->|Hne].
      + rewrite list_lookup_insert_eq in Hi by (eapply lookup_lt_Some, Hx).
        injection Hi as <-. by apply owns_finish.
      + rewrite list_lookup_insert_ne in Hi by congruence.
        eapply own_handler; eauto. }
  destruct ev as [s b| | |].
  - rewrite (deliver_load _ _ _ _ _ Hx Hs Ho). cbv zeta.
    destruct (JSON.parse b) as [d|e].
    + set (w1 := set_xhrs _ w).
      destruct (settle_rest x (Fulfilled {| status := s; data := d |}) w1)
        as (Hh & Hxs & Hw & _).
      split; [|split; [|split]].
      * split.
        -- rewrite settle_length, Hxs. apply (Hc1 s b).
        -- rewrite Hxs. apply (Hc1 s b).
      * rewrite Hh. reflexivity.
      * rewrite Hw. reflexivity.
      * intros y Hy. rewrite Hxs, settle_promises. simpl. split.
        -- destruct (promises w !! x) as [[]|]; try reflexivity.
           by rewrite list_lookup_insert_ne by congruence.
        -- by rewrite list_lookup_insert_ne by congruence.
    + split; [|split; [|split]]; try reflexivity.
      * destruct (Hc1 s b) as [H1 H2]. split; simpl in *; assumption.
      * intros y Hy. simpl. split; [reflexivity|].
        by rewrite list_lookup_insert_ne by congruence.
  - rewrite (deliver_failure _ _ _ _ Hx Hs) by discriminate.
    split; [apply Hc1|]. split; [reflexivity|]. split; [reflexivity|].
    intros y Hy; simpl. split; [reflexivity|].
    by rewrite list_lookup_insert_ne by congruence.
  - rewrite (deliver_failure _ _ _ _ Hx Hs) by discriminate.
    split; [apply Hc1|]. split; [reflexivity|]. split; [reflexivity|].
    intros y Hy; simpl. split; [reflexivity|].
    by rewrite list_lookup_insert_ne by congruence.
  - rewrite (deliver_failure _ _ _ _ Hx Hs) by discriminate.
    split; [apply Hc1|]. split; [reflexivity|]. split; [reflexivity|].
    intros y Hy; simpl. split; [reflexivity|].
    by rewrite list_lookup_insert_ne by congruence.
Qed.

Lemma owns_sent_get u i : owns i (sent "GET" u [] (get_onload (ResolveOf i) i)).
Proof. left; reflexivity. Qed.

Lemma owns_sent_post u i :
  owns i (sent "POST" u json_headers (post_onload (ResolveOf i) i)).
Proof. right; reflexivity. Qed.

Lemma consistent_step w a : consistent w -> consistent (step w a).
Proof.
  intros Hc. destruct a as [[u|u d]|x ev|h]; simpl.
  - rewrite get_unfold. simpl. apply consistent_after_call; [assumption|].
    rewrite (same_length _ Hc). apply owns_sent_get.
  - rewrite post_unfold. destruct (JSON.stringify (heap_of w) d); simpl.
    + apply consistent_after_call; [assumption|].
      rewrite (same_length _ Hc). apply owns_sent_post.
    + assumption.
  - by apply deliver_effect.
  - destruct Hc as [H1 H2]. split; simpl; assumption.
Qed.

Lemma consistent_run acts w : consistent w -> consistent (run acts w).
Proof.
  revert w. induction acts as [|a acts IH]; intros w Hc; simpl; [assumption|].
  apply IH. by apply consistent_step.
Qed.

Lemma reachable_consistent h acts : consistent (run acts (initial h)).
Proof. apply consistent_run, consistent_initial. Qed.

(** ** Following one call through a run *)

Lemma waiting_pending x w : waiting x w -> pending x w.
Proof. intros (Hp & o & Ho & _). split; [assumption | eauto]. Qed.

Lemma after_call_old w o r x :
  (is_Some (promises w !! x) ->
     promises (after_call w o r) !! x = promises w !! x) /\
  (is_Some (xhrs w !! x) -> xhrs (after_call w o r) !! x = xhrs w !! x).
Proof.
  simpl. split; intros [v Hv]; apply lookup_snoc_lt;
    eapply lookup_lt_Some; eassumption.
Qed.

Lemma step_call_old w a x :
  (forall y ev, a <> Deliver y ev) ->
  (is_Some (promises w !! x) -> promises (step w a) !! x = promises w !! x) /\
  (is_Some (xhrs w !! x) -> xhrs (step w a) !! x = xhrs w !! x).
Proof.
  intros Hnd. destruct a as [[u|u d]|y ev|h]; simpl.
  - rewrite get_unfold. cbn [snd]. apply after_call_old.
  - rewrite post_unfold. destruct (JSON.stringify (heap_of w) d); cbn [snd].
    + apply after_call_old.
    + auto.
  - exfalso. eapply Hnd. reflexivity.
  - auto.
Qed.

Lemma waiting_step x w a :
  consistent w -> waiting x w -> touches x a = false -> waiting x (step w a).
Proof.
  intros Hc (Hp & o & Ho & Hs) Ht.
  destruct a as [i|y ev|h].
  1,3: match goal with |- waiting _ (step _ ?a) =>
           destruct (step_call_old w a x) as [H1 H2];
           [intros ? ? [=]
           | split; [rewrite H1; eauto | exists o; rewrite H2; eauto]]
         end.
  simpl in Ht. apply Nat.eqb_neq in Ht.
  destruct (deliver_effect y ev w Hc) as (_ & _ & _ & Hf).
  destruct (Hf x) as [H1 H2]; [congruence|].
  simpl. split; [rewrite H1; assumption | exists o; rewrite H2; auto].
Qed.

Lemma pending_step x w a :
  consistent w -> pending x w -> loads x a = false -> pending x (step w a).
Proof.
  intros Hc (Hp & Hx) Ht.
  destruct a as [i|y ev|h].
  1,3: match goal with |- pending _ (step _ ?a) =>
           destruct (step_call_old w a x) as [H1 H2];
           [intros ? ? [=] | split; [rewrite H1; eauto | rewrite H2; eauto]]
         end.
  destruct (decide (y = x)) as [->|Hne].
  - simpl. destruct Hx as [o Ho].
    destruct (XHR.send_flag o) eqn:Hs.
    + assert (forall s b, ev <> Load s b) as Hev.
      { intros s b ->. simpl in Ht. rewrite Nat.eqb_refl in Ht. discriminate. }
      rewrite (deliver_failure _ _ _ _ Ho Hs Hev).
      split; simpl; [assumption|].
      rewrite list_lookup_insert_eq by (eapply lookup_lt_Some, Ho). eauto.
    + rewrite deliver_idle by (intros o' Ho'; congruence).
      split; [assumption | eauto].
  - destruct (deliver_effect y ev w Hc) as (_ & _ & _ & Hf).
    destruct (Hf x) as [H1 H2]; [congruence|].
    simpl. split; [rewrite H1; assumption | rewrite H2; assumption].
Qed.

Lemma quiet_touches x acts :
  quiet x acts = true -> Forall (fun a => touches x a = false) acts.
Proof.
  unfold quiet. rewrite forallb_forall, Forall_forall. intros H a Ha.
  specialize (H a (proj1 (list_elem_of_In _ _) Ha)).
  destruct a as [|y ev|]; simpl in *; try reflexivity.
  by apply negb_true_iff in H.
Qed.

Lemma loadless_loads x acts :
  loadless x acts = true -> Forall (fun a => loads x a = false) acts.
Proof.
  unfold loadless. rewrite forallb_forall, Forall_forall. intros H a Ha.
  specialize (H a (proj1 (list_elem_of_In _ _) Ha)).
  destruct a as [|y [] |]; simpl in *; try reflexivity.
  by apply negb_true_iff in H.
Qed.

Lemma waiting_run x acts w :
  consistent w -> waiting x w -> quiet x acts = true ->
  waiting x (run acts w).
Proof.
  intros Hc Hw Hq. apply quiet_touches in Hq.
  revert w Hc Hw. induction Hq as [|a acts Ha _ IH]; intros w Hc Hw; simpl.
  - assumption.
  - apply IH; [by apply consistent_step | by apply waiting_step].
Qed.

Lemma pending_run x acts w :
  consistent w -> pending x w -> loadless x acts = true ->
  pending x (run acts w).
Proof.
  intros Hc Hw Hq. apply loadless_loads in Hq.
  revert w Hc Hw. induction Hq as [|a acts Ha _ IH]; intros w Hc Hw; simpl.
  - assumption.
  - apply IH; [by apply consistent_step | by apply pending_step].
Qed.

(** Right after a call, its promise is pending and its request in flight. *)
Lemma waiting_after_call w o r :
  consistent w -> XHR.send_flag o = true ->
  waiting (next_xhr w) (after_call w o r).
Proof.
  intros Hc Hs. unfold waiting, next_xhr; simpl. split.
  - rewrite <- (same_length _ Hc). apply lookup_snoc.
  - exists o. split; [apply lookup_snoc | assumption].
Qed.

Lemma deliver_waiting x s b w :
  consistent w -> waiting x w ->
  state_of x (deliver x (Load s b) w) = Some (completion s b) /\
  uncaught (deliver x (Load s b) w) = uncaught w ++ escaping b.
Proof.
  intros Hc (Hp & o & Ho & Hs).
  rewrite (deliver_load _ _ _ _ _ Ho Hs (own_handler _ Hc _ _ Ho)).
  unfold completion, escaping, state_of. cbv zeta.
  destruct (JSON.parse b) as [d|e].
  - rewrite settle_promises.
    destruct (settle_rest x (Fulfilled {| status := s; data := d |})
                (set_xhrs <[x:=finish o s b]> w)) as (_ & _ & _ & ->).
    simpl. rewrite Hp. split; [|by rewrite app_nil_r].
    apply list_lookup_insert_eq. eapply lookup_lt_Some, Hp.
  - simpl. auto.
Qed.

(** A call that returns a promise returns a new one, which is pending, with
    the request object of the call in flight. *)
Lemma invoke_returns i w p w1 :
  consistent w -> invoke i w = (Return p, w1) ->
  p = next_xhr w /\ consistent w1 /\ waiting (next_xhr w) w1.
Proof.
  intros Hc. unfold next_xhr at 1. rewrite <- (same_length _ Hc).
  destruct i as [u|u d]; simpl.
  - rewrite get_unfold. intros [= <- <-]. split; [reflexivity|]. split.
    + apply consistent_after_call; [assumption|].
      rewrite (same_length _ Hc). apply owns_sent_get.
    + by apply waiting_after_call.
  - rewrite post_unfold. destruct (JSON.stringify (heap_of w) d); [|discriminate].
    intros [= <- <-]. split; [reflexivity|]. split.
    + apply consistent_after_call; [assumption|].
      rewrite (same_length _ Hc). apply owns_sent_post.
    + by apply waiting_after_call.
Qed.

(** [get] always returns a promise; [post] does when [data] serialises. *)
Lemma get_returns u w : exists p w1, get u w = (Return p, w1).
Proof. rewrite get_unfold. eauto. Qed.

(** The central lemma: a call made in a reachable world, any activity that
    does not concern its request, then the completion of the request. *)
Lemma call_completes h pre i mid s b p w1 :
  let w := run pre (initial h) in
  invoke i w = (Return p, w1) ->
  quiet (next_xhr w) mid = true ->
  let w2 := run mid w1 in
  state_of p (deliver (next_xhr w) (Load s b) w2) = Some (completion s b) /\
  uncaught (deliver (next_xhr w) (Load s b) w2) = uncaught w2 ++ escaping b.
Proof.
  intros w Hi Hq w2.
  destruct (invoke_returns i w p w1 (reachable_consistent h pre) Hi)
    as (-> & Hc1 & Hw1).
  apply deliver_waiting.
  - by apply consistent_run.
  - by apply waiting_run.
Qed.

(** Without a [Load] event the promise of a call stays pending. *)
Lemma call_hangs h pre i mid p w1 :
  let w := run pre (initial h) in
  invoke i w = (Return p, w1) ->
  loadless (next_xhr w) mid = true ->
  state_of p (run mid w1) = Some Pending.
Proof.
  intros w Hi Hq.
  destruct (invoke_returns i w p w1 (reachable_consistent h pre) Hi)
    as (-> & Hc1 & Hw1).
  apply (pending_run _ mid w1 Hc1 (waiting_pending _ _ Hw1) Hq).
Qed.

(** ** The parser stays within its recursion bound *)

Module JSONFacts.
Import JSON.

Lemma pmap_ok {A B} (f : A -> B) r b rest :
  pmap f r = POk b rest -> exists a, r = POk a rest /\ b = f a.
Proof. destruct r; simpl; intros [=]; subst; eauto. Qed.

Lemma pmap_fuel {A B} (f : A -> B) r : pmap f r = PFuel -> r = PFuel.
Proof. destruct r; simpl; intros [=]; reflexivity. Qed.

Lemma skip_ws_length s : (length (skip_ws s) <= length s)%nat.
Proof.
  induction s as [|c t IH]; simpl; [lia|]. destruct (is_ws c); simpl; lia.
Qed.

Lemma take_digits_length s ds r :
  take_digits s = (ds, r) -> length s = (length ds + length r)%nat.
Proof.
  revert ds r. induction s as [|c t IH]; simpl; intros ds r.
  - intros [= <- <-]. reflexivity.
  - destruct (is_digit c).
    + destruct (take_digits t) as [ds' r'] eqn:E. intros [= <- <-].
      simpl. rewrite (IH _ _ eq_refl). reflexivity.
    + intros [= <- <-]. reflexivity.
Qed.

Lemma expect_length w s r : expect w s = Some r -> (length r <= length s)%nat.
Proof.
  revert s. induction w as [|a w IH]; intros [|b s]; simpl; try discriminate.
  - intros [= <-]. simpl. lia.
  - intros [= <-]. simpl. lia.
  - destruct (a =? b); [|discriminate]. intros H%IH. lia.
Qed.

Lemma parse_chars_not_fuel s : parse_chars s <> PFuel.
Proof.
  induction s as [s IH] using (induction_ltof1 _ (@length N)).
  unfold ltof in IH. destruct s as [|c t]; simpl; [discriminate|].
  repeat case_match; try discriminate;
    intros Hfuel%pmap_fuel; revert Hfuel; apply IH; simpl; lia.
Qed.

Lemma parse_chars_shorter s k r :
  parse_chars s = POk k r -> (length r < length s)%nat.
Proof.
  revert k r. induction s as [s IH] using (induction_ltof1 _ (@length N)).
  unfold ltof in IH. intros k r. destruct s as [|c t]; simpl; [discriminate|].
  repeat case_match; try discriminate;
    try (intros (k' & Hok & _)%pmap_ok; apply IH in Hok; simpl in *; lia).
  intros [= <- <-]. lia.
Qed.

Lemma parse_frac_shorter s fs r :
  parse_frac s = POk fs r -> (length r <= length s)%nat.
Proof.
  unfold parse_frac. destruct s as [|c t]; [intros [= <- <-]; lia|].
  destruct (c =? 46).
  - destruct (take_digits t) as [[|d ds] r'] eqn:E; [discriminate|].
    intros [= <- <-]. apply take_digits_length in E. simpl in *. lia.
  - intros [= <- <-]. lia.
Qed.

Lemma parse_exp_shorter s e r :
  parse_exp s = POk e r -> (length r <= length s)%nat.
Proof.
  unfold parse_exp. destruct s as [|c t]; [intros [= <- <-]; lia|].
  destruct ((c =? 101) || (c =? 69)); [|intros [= <- <-]; lia].
  destruct t as [|x u].
  - simpl. discriminate.
  - repeat case_match; try discriminate; simplify_eq;
      intros [= <- <-];
      match goal with H : take_digits _ = _ |- _ =>
        apply take_digits_length in H end; simpl in *; lia.
Qed.

Lemma parse_number_not_fuel s : parse_number s <> PFuel.
Proof.
  unfold parse_number, parse_frac, parse_exp.
  repeat case_match; discriminate.
Qed.

Lemma parse_number_shorter s d r :
  parse_number s = POk d r -> (length r < length s)%nat.
Proof.
  unfold parse_number.
  destruct (match s with
            | [] => (false, s)
            | c :: t => if c =? 45 then (true, t) else (false, s)
            end) as [sign s1] eqn:E1.
  assert (length s1 <= length s)%nat as Hs1.
  { destruct s as [|c t]; [by injection E1 as <- <-|].
    destruct (c =? 45); injection E1 as <- <-; simpl; lia. }
  destruct (take_digits s1) as [[|i more] s2] eqn:E2; [discriminate|].
  apply take_digits_length in E2.
  destruct ((i =? 48) && negb (length more =? 0)%nat); [discriminate|].
  destruct (parse_frac s2) as [fs s3| |] eqn:E3; try discriminate.
  destruct (parse_exp s3) as [e s4| |] eqn:E4; try discriminate.
  intros [= <- <-]. apply parse_frac_shorter in E3.
  apply parse_exp_shorter in E4. simpl in *. lia.
Qed.

Lemma parse_bounds f :
  (forall s, (2 * length s + 1 <= f)%nat -> parse_value f s <> PFuel) /\
  (forall s, (2 * length s + 2 <= f)%nat -> parse_elements f s <> PFuel) /\
  (forall s, (2 * length s + 2 <= f)%nat -> parse_members f s <> PFuel) /\
  (forall s v r, parse_value f s = POk v r -> (length r < length s)%nat) /\
  (forall s v r, parse_elements f s = POk v r -> (length r < length s)%nat) /\
  (forall s v r, parse_members f s = POk v r -> (length r < length s)%nat).
Proof.
  induction f as [|f (IHv & IHe & IHm & IHvs & IHes & IHms)].
  { repeat split; intros; simpl in *; try discriminate; lia. }
  repeat split.
  - (* parse_value, fuel *)
    intros s Hf. destruct s as [|c t]; simpl; [discriminate|].
    repeat case_match; try discriminate.
    + intros Hp%pmap_fuel. revert Hp. apply IHm.
      pose proof (skip_ws_length t) as Hl.
      match goal with H : skip_ws t = _ |- _ => rewrite H in Hl end.
      simpl in *. lia.
    + intros Hp%pmap_fuel. revert Hp. apply IHe.
      pose proof (skip_ws_length t) as Hl.
      match goal with H : skip_ws t = _ |- _ => rewrite H in Hl end.
      simpl in *. lia.
    + intros Hp%pmap_fuel. revert Hp. apply parse_chars_not_fuel.
    + intros Hp%pmap_fuel. revert Hp. apply parse_number_not_fuel.
  - (* parse_elements, fuel *)
    intros s Hf. simpl.
    pose proof (skip_ws_length s) as Hl.
    destruct (parse_value f (skip_ws s)) as [v r| |] eqn:Ev; try discriminate.
    + apply IHvs in Ev. pose proof (skip_ws_length r) as Hr.
      destruct (skip_ws r) as [|c r']; [discriminate|].
      repeat case_match; try discriminate.
      intros Hp%pmap_fuel. revert Hp. apply IHe. simpl in *. lia.
    + exfalso. revert Ev. apply IHv. lia.
  - (* parse_members, fuel *)
    intros s Hf. simpl.
    pose proof (skip_ws_length s) as Hl.
    destruct (skip_ws s) as [|q s1]; [discriminate|].
    destruct (q =? QUOTE); [|discriminate].
    destruct (parse_chars s1) as [k s2| |] eqn:Ek; try discriminate.
    2: { exfalso. revert Ek. apply parse_chars_not_fuel. }
    apply parse_chars_shorter in Ek.
    pose proof (skip_ws_length s2) as Hl2.
    destruct (skip_ws s2) as [|c s3]; [discriminate|].
    destruct (c =? 58); [|discriminate].
    pose proof (skip_ws_length s3) as Hl3.
    destruct (parse_value f (skip_ws s3)) as [v r| |] eqn:Ev; try discriminate.
    + apply IHvs in Ev. pose proof (skip_ws_length r) as Hr.
      destruct (skip_ws r) as [|c' r']; [discriminate|].
      repeat case_match; try discriminate.
      intros Hp%pmap_fuel. revert Hp. apply IHm. simpl in *. lia.
    + exfalso. revert Ev. apply IHv. simpl in *. lia.
  - (* parse_value, progress *)
    intros s v r. destruct s as [|c t]; simpl; [discriminate|].
    repeat case_match; try discriminate;
      try (intros [= <- <-]);
      try (intros (a & Hp & _)%pmap_ok);
      try match goal with H : skip_ws t = _ |- _ =>
            pose proof (skip_ws_length t) as Hl; rewrite H in Hl end;
      try match goal with H : expect _ _ = Some _ |- _ =>
            apply expect_length in H end;
      try match goal with H : parse_members _ _ = POk _ _ |- _ =>
            apply IHms in H end;
      try match goal with H : parse_elements _ _ = POk _ _ |- _ =>
            apply IHes in H end;
      try match goal with H : parse_chars _ = POk _ _ |- _ =>
            apply parse_chars_shorter in H end;
      try match goal with H : parse_number _ = POk _ _ |- _ =>
            apply parse_number_shorter in H end;
      simplify_eq/=; lia.
  - (* parse_elements, progress *)
    intros s vs r. simpl.
    pose proof (skip_ws_length s) as Hl.
    destruct (parse_value f (skip_ws s)) as [v r0| |] eqn:Ev; try discriminate.
    apply IHvs in Ev. pose proof (skip_ws_length r0) as Hr.
    destruct (skip_ws r0) as [|c r']; [discriminate|].
    repeat case_match; try discriminate.
    + intros (a & Hp & _)%pmap_ok. apply IHes in Hp. simpl in *. lia.
    + intros [= <- <-]. simpl in *. lia.
  - (* parse_members, progress *)
    intros s ms r. simpl.
    pose proof (skip_ws_length s) as Hl.
    destruct (skip_ws s) as [|q s1]; [discriminate|].
    destruct (q =? QUOTE); [|discriminate].
    destruct (parse_chars s1) as [k s2| |] eqn:Ek; try discriminate.
    apply parse_chars_shorter in Ek.
    pose proof (skip_ws_length s2) as Hl2.
    destruct (skip_ws s2) as [|c s3]; [discriminate|].
    destruct (c =? 58); [|discriminate].
    pose proof (skip_ws_length s3) as Hl3.
    destruct (parse_value f (skip_ws s3)) as [v r0| |] eqn:Ev; try discriminate.
    apply IHvs in Ev. pose proof (skip_ws_length r0) as Hr.
    destruct (skip_ws r0) as [|c' r']; [discriminate|].
    repeat case_match; try discriminate.
    + intros (a & Hp & _)%pmap_ok. apply IHms in Hp. simpl in *. lia.
    + intros [= <- <-]. simpl in *. lia.
Qed.

(** [JSON.parse] never gives up for lack of fuel: its only exception is
    [SyntaxError]. *)
Lemma parse_within_bound text :
  parse_value (parse_fuel text) (skip_ws text) <> PFuel.
Proof.
  apply (parse_bounds (parse_fuel text)). unfold parse_fuel.
  pose proof (skip_ws_length text). lia.
Qed.

Lemma parse_throws text e : parse text = Throw e -> e = SyntaxError.
Proof.
  unfold parse. pose proof (parse_within_bound text) as Hb.
  destruct (parse_value (parse_fuel text) (skip_ws text)) as [v r| |].
  - destruct (skip_ws r); [discriminate|]. by intros [= <-].
  - by intros [= <-].
  - contradiction.
Qed.

(** ** Decimal digits *)

Lemma size_nat_monotone a b : a <= b -> (N.size_nat a <= N.size_nat b)%nat.
Proof.
  destruct a as [|p], b as [|q]; simpl; intros H; try lia.
  destruct (Pos.eq_dec p q) as [->|Hne]; [lia|].
  apply Pos.size_nat_monotone. lia.
Qed.

Lemma size_nat_div10 m : 10 <= m -> (N.size_nat (m / 10) < N.size_nat m)%nat.
Proof.
  intros Hm.
  assert (m / 10 <= N.div2 m) as Hle.
  { rewrite N.div2_div. apply N.div_le_compat_l. lia. }
  apply size_nat_monotone in Hle.
  assert (S (N.size_nat (N.div2 m)) = N.size_nat m) as <-; [|lia].
  destruct m as [|[p|p|]]; simpl; try reflexivity; lia.
Qed.

Lemma of_digits_snoc ds c : of_digits (ds ++ [c]) = 10 * of_digits ds + (c - 48).
Proof. unfold of_digits. by rewrite fold_left_app. Qed.

Lemma is_digit_spec c : is_digit c = true <-> 48 <= c <= 57.
Proof. unfold is_digit. rewrite andb_true_iff, !N.leb_le. tauto. Qed.

Lemma to_digits_aux_spec f : forall m acc,
  (N.size_nat m <= f)%nat ->
  exists ds,
    to_digits_aux (S f) m acc = ds ++ acc /\
    Forall (fun c => is_digit c = true) ds /\
    of_digits ds = m /\
    match ds with
    | [] => False
    | c :: _ => m <> 0 -> c <> 48
    end.
Proof.
  induction f as [|f IH]; intros m acc Hf.
  - assert (m = 0) as -> by (destruct m; simpl in Hf; [reflexivity | destruct p; simpl in Hf; lia]).
    exists [48]. repeat split; [by repeat constructor | congruence].
  - cbn [to_digits_aux]. destruct (m <? 10) eqn:Hm.
    + apply N.ltb_lt in Hm. exists [48 + m mod 10]. cbn [app].
      rewrite N.mod_small by assumption. repeat split.
      * repeat constructor. apply is_digit_spec. lia.
      * unfold of_digits; simpl. lia.
      * lia.
    + apply N.ltb_ge in Hm.
      destruct (IH (m / 10) ((48 + m mod 10) :: acc)) as (ds & E & Hd & Hv & Hh).
      { pose proof (size_nat_div10 m Hm). lia. }
      exists (ds ++ [48 + m mod 10]). rewrite <- app_assoc. cbn [app].
      split; [exact E|]. split; [|split].
      * apply Forall_app. split; [assumption|]. repeat constructor.
        apply is_digit_spec.
        assert (m mod 10 < 10) by (apply N.mod_upper_bound; discriminate).
        generalize dependent (m mod 10). intros; lia.
      * rewrite of_digits_snoc, Hv.
        rewrite (N.div_mod m 10) at 3 by discriminate.
        generalize (m mod 10) (m / 10). intros; lia.
      * destruct ds as [|c ds']; [contradiction|]. cbn [app].
        intros _. apply Hh. intros H0. apply N.div_small_iff in H0; lia.
Qed.

Lemma to_digits_spec m :
  Forall (fun c => is_digit c = true) (to_digits m) /\
  of_digits (to_digits m) = m /\
  match to_digits m with
  | [] => False
  | c :: _ => m <> 0 -> c <> 48
  end.
Proof.
  unfold to_digits.
  destruct (to_digits_aux_spec (N.size_nat m) m [] (le_n _))
    as (ds & -> & H). by rewrite app_nil_r.
Qed.

Lemma take_digits_app ds rest :
  Forall (fun c => is_digit c = true) ds ->
  match rest with [] => True | c :: _ => is_digit c = false end ->
  take_digits (ds ++ rest) = (ds, rest).
Proof.
  intros Hd Hr. induction Hd as [|c ds Hc _ IH]; simpl.
  - destruct rest as [|c t]; [reflexivity|]. simpl. by rewrite Hr.
  - by rewrite Hc, IH.
Qed.

(** [strip_trailing_zeros] keeps a prefix, and what it cuts are zeros. *)
Lemma drop_zeros_split s :
  exists j, s = zeros j ++ drop_zeros s /\
            match drop_zeros s with [] => True | c :: _ => c <> 48 end.
Proof.
  induction s as [|c t (j & E & H)]; simpl.
  - exists 0%nat. auto.
  - destruct (c =? 48) eqn:Hc.
    + apply N.eqb_eq in Hc as ->. exists (S j). unfold zeros in *. simpl.
      by rewrite <- E.
    + apply N.eqb_neq in Hc. exists 0%nat. auto.
Qed.

Lemma rev_zeros j : rev (zeros j) = zeros j.
Proof.
  unfold zeros. induction j as [|j IH]; [reflexivity|].
  simpl. rewrite IH. clear IH. induction j; simpl; [reflexivity|]. by f_equal.
Qed.

Lemma strip_trailing_zeros_split ds :
  exists j, ds = strip_trailing_zeros ds ++ zeros j.
Proof.
  destruct (drop_zeros_split (rev ds)) as (j & E & _). exists j.
  unfold strip_trailing_zeros.
  apply (f_equal (@rev N)) in E.
  by rewrite rev_involutive, rev_app_distr, rev_zeros in E.
Qed.

Lemma Forall_zeros j : Forall (fun c => is_digit c = true) (zeros j).
Proof. unfold zeros. apply Forall_forall. intros c ->%elem_of_replicate_inv. reflexivity. Qed.

(** ** Number texts the parser accepts *)

Lemma delimited_not_digit rest :
  delimited rest -> match rest with [] => True | c :: _ => is_digit c = false end.
Proof. destruct rest as [|c t]; [done|]. intros [->| [->| ->]]; reflexivity. Qed.

Lemma parse_exp_text (ex : option (bool * jsstring)) rest :
  match ex with None => True | Some (_, es) => digits es /\ es <> [] end ->
  delimited rest ->
  parse_exp (match ex with
             | None => []
             | Some (s, es) => 101 :: (if s then 45 else 43) :: es
             end ++ rest) = POk (exponent_value ex) rest.
Proof.
  intros Hex Hr. destruct ex as [[s es]|]; simpl.
  - destruct Hex as [Hd Hne].
    destruct s; simpl;
      rewrite (take_digits_app es rest Hd (delimited_not_digit _ Hr));
      destruct es; try contradiction; reflexivity.
  - destruct rest as [|c t]; [reflexivity|].
    destruct Hr as [->| [->| ->]]; reflexivity.
Qed.

Lemma parse_number_text sign int fs (ex : option (bool * jsstring)) rest :
  digits int ->
  match int with
  | [] => False
  | [_] => True
  | c :: _ :: _ => c <> 48
  end ->
  digits fs ->
  match ex with None => True | Some (_, es) => digits es /\ es <> [] end ->
  delimited rest ->
  parse_number (number_text sign int fs ex ++ rest) =
  POk (decimal_of_digits sign (int ++ fs)
         (exponent_value ex - Z.of_nat (length fs))) rest.
Proof.
  intros Hint Hlead Hfs Hex Hr. unfold parse_number, number_text.
  set (etext := match ex with
                | None => []
                | Some (s, es) => 101 :: (if s then 45 else 43) :: es
                end).
  set (ftext := match fs with [] => [] | _ :: _ => 46 :: fs end).
  assert (match ((if sign then [45] else []) ++ int ++ ftext ++ etext) ++ rest with
          | [] => (false, ((if sign then [45] else []) ++ int ++ ftext ++ etext) ++ rest)
          | c :: t => if c =? 45 then (true, t)
                      else (false, ((if sign then [45] else []) ++ int ++ ftext ++ etext) ++ rest)
          end = (sign, int ++ (ftext ++ etext ++ rest))) as ->.
  { destruct sign; simpl.
    - by rewrite <- !app_assoc.
    - destruct int as [|c int']; [contradiction|]. simpl.
      apply Forall_cons in Hint as [Hc _]. apply is_digit_spec in Hc.
      destruct (c =? 45) eqn:E; [apply N.eqb_eq in E; lia|].
      by rewrite <- !app_assoc. }
  assert (match ftext ++ etext ++ rest with
          | [] => True
          | c :: _ => is_digit c = false
          end) as Htail.
  { subst ftext etext. destruct fs; simpl; [|reflexivity].
    destruct ex as [[s es]|]; simpl; [reflexivity|].
    by apply delimited_not_digit. }
  rewrite (take_digits_app int _ Hint Htail).
  destruct int as [|i more]; [contradiction|].
  assert ((i =? 48) && negb (length more =? 0)%nat = false) as ->.
  { destruct more; simpl; [by rewrite andb_false_r|].
    rewrite andb_true_r. by apply N.eqb_neq. }
  assert (parse_frac (ftext ++ etext ++ rest) = POk fs (etext ++ rest)) as ->.
  { subst ftext. destruct fs as [|c fs'].
    - simpl. unfold parse_frac.
      destruct (etext ++ rest) as [|c t] eqn:E; [reflexivity|].
      assert ((c =? 46) = false) as ->; [|reflexivity].
      subst etext. destruct ex as [[s es]|]; simpl in E.
      + by injection E as <- _.
      + subst rest. destruct Hr as [->| [->| ->]]; reflexivity.
    - cbn [app parse_frac]. rewrite N.eqb_refl.
      assert (match etext ++ rest with
              | [] => True
              | c :: _ => is_digit c = false
              end) as Ht.
      { subst etext. destruct ex as [[s es]|]; simpl; [reflexivity|].
        by apply delimited_not_digit. }
      change (c :: fs' ++ etext ++ rest) with ((c :: fs') ++ etext ++ rest).
      by rewrite (take_digits_app (c :: fs') _ Hfs Ht). }
  subst etext. by rewrite (parse_exp_text ex rest Hex Hr).
Qed.

Lemma fraction_nonempty (fs : jsstring) :
  fs <> [] -> match fs with [] => [] | _ :: _ => 46 :: fs end = 46 :: fs.
Proof. destruct fs; [contradiction | reflexivity]. Qed.

(** What [Number::toString] prints is a JSON number. *)
Lemma NumberToString_shape d :
  exists sign int fs ex,
    NumberToString d = number_text sign int fs ex /\
    well_formed_number int fs ex.
Proof.
  unfold NumberToString.
  destruct (to_digits_spec (mant d)) as (Hd & _ & Hh).
  destruct (strip_trailing_zeros_split (to_digits (mant d))) as (j & Hj).
  destruct (strip_trailing_zeros (to_digits (mant d))) as [|first more] eqn:Es.
  { exists false, [48], [], None. split; [reflexivity|].
    split; [by repeat constructor|]. split; [done|]. split; [constructor | done]. }
  assert (mant d <> 0) as Hm.
  { intros H0. rewrite H0 in Es. vm_compute in Es. discriminate. }
  rewrite Hj in Hd, Hh. apply Forall_app in Hd as [Hds _].
  cbn [app] in Hh. specialize (Hh Hm).
  set (ds := first :: more) in *.
  set (k := Z.of_nat (length ds)).
  set (n := (Z.of_nat (length (to_digits (mant d))) + expo d)%Z).
  assert (forall body int fs ex,
            body = number_text false int fs ex ->
            (if neg d then 45 :: body else body) =
              number_text (neg d) int fs ex) as Hsign.
  { intros body int fs ex ->. unfold number_text. by destruct (neg d). }
  destruct ((k <=? n)%Z && (n <=? 21)%Z) eqn:EA.
  { exists (neg d), (ds ++ zeros (Z.to_nat (n - k))), [], None. split.
    - apply Hsign. unfold number_text. simpl. by rewrite !app_nil_r.
    - split; [|split; [|split; [constructor | done]]].
      + apply Forall_app. split; [assumption | apply Forall_zeros].
      + subst ds. cbn [app]. by destruct (more ++ zeros _). }
  destruct ((0 <? n)%Z && (n <=? 21)%Z) eqn:EB.
  { apply andb_true_iff in EB as [Hn0%Z.ltb_lt Hn21%Z.leb_le].
    assert (n < k)%Z as Hnk.
    { apply andb_false_iff in EA as [EA%Z.leb_gt | EA%Z.leb_gt]; lia. }
    exists (neg d), (take (Z.to_nat n) ds), (drop (Z.to_nat n) ds), None.
    assert (drop (Z.to_nat n) ds <> []) as Hdrop.
    { intros H0. apply (f_equal length) in H0. rewrite length_drop in H0.
      subst k ds. simpl in *. lia. }
    split.
    - apply Hsign. unfold number_text. cbn [app].
      by rewrite (fraction_nonempty _ Hdrop), app_nil_r.
    - split; [|split; [|split; [|done]]].
      + by apply Forall_take.
      + destruct (Z.to_nat n) as [|n'] eqn:En; [lia|]. subst ds. cbn [take].
        by destruct (take n' more).
      + by apply Forall_drop. }
  destruct ((-6 <? n)%Z && (n <=? 0)%Z) eqn:EC.
  { exists (neg d), [48], (zeros (Z.to_nat (- n)) ++ ds), None.
    assert (zeros (Z.to_nat (- n)) ++ ds <> []) as Hne.
    { subst ds. intros H0. destruct (zeros (Z.to_nat (- n))); discriminate H0. }
    split.
    - apply Hsign. unfold number_text. cbn [app].
      by rewrite (fraction_nonempty _ Hne), app_nil_r.
    - split; [|split; [|split; [|done]]].
      + by repeat constructor.
      + done.
      + apply Forall_app. split; [apply Forall_zeros | assumption]. }
  set (e := (n - 1)%Z).
  destruct (to_digits_spec (Z.abs_N e)) as (Hed & _ & Hene).
  assert (to_digits (Z.abs_N e) <> []) as Hene'.
  { intros H0. by rewrite H0 in Hene. }
  exists (neg d), [first], more, (Some ((e <? 0)%Z, to_digits (Z.abs_N e))).
  split.
  - apply Hsign. unfold number_text. subst ds. cbn [app].
    destruct more as [|c more']; [reflexivity|].
    reflexivity.
  - subst ds. apply Forall_cons in Hds as [Hf Hmore].
    split; [by repeat constructor|]. split; [done|]. split; [assumption|].
    split; assumption.
Qed.

(** ... and so is read back as a number, whatever follows it in a text. *)
Lemma NumberToString_parses d :
  exists dec, forall rest, delimited rest ->
    parse_number (NumberToString d ++ rest) = POk dec rest.
Proof.
  destruct (NumberToString_shape d)
    as (sign & int & fs & ex & -> & Hint & Hlead & Hfs & Hex).
  eexists. intros rest Hr. by apply parse_number_text.
Qed.

Lemma number_text_head sign int fs ex :
  well_formed_number int fs ex ->
  exists c t, number_text sign int fs ex = c :: t /\
              (c = 45 \/ is_digit c = true).
Proof.
  intros (Hint & Hlead & _). unfold number_text.
  destruct sign; simpl; [eauto|].
  destruct int as [|c int']; [contradiction|].
  apply Forall_cons in Hint as [Hc _]. simpl. eauto.
Qed.

(** ** Strings: [parse_chars] undoes [QuoteJSONString] *)

Lemma parse_literal c t :
  32 <= c -> c <> 34 -> c <> 92 ->
  parse_chars (c :: t) = pmap (cons c) (parse_chars t).
Proof.
  intros H1 H2 H3. cbn [parse_chars]. unfold QUOTE, BACKSLASH.
  apply N.eqb_neq in H2, H3. apply N.ltb_ge in H1.
  by rewrite H2, H3, H1.
Qed.

Lemma hex_value_digit n : n < 16 -> hex_value (hex_digit n) = Some n.
Proof.
  intros Hn. unfold hex_digit, hex_value, is_digit.
  destruct (n <? 10) eqn:E.
  - apply N.ltb_lt in E.
    assert ((48 <=? 48 + n) && (48 + n <=? 57) = true) as ->.
    { apply andb_true_iff. rewrite !N.leb_le. lia. }
    f_equal. lia.
  - apply N.ltb_ge in E.
    assert ((48 <=? 87 + n) && (87 + n <=? 57) = false) as ->.
    { apply andb_false_iff. right. apply N.leb_gt. lia. }
    assert ((97 <=? 87 + n) && (87 + n <=? 102) = true) as ->.
    { apply andb_true_iff. rewrite !N.leb_le. lia. }
    f_equal. lia.
Qed.

Lemma hex4_digits c :
  c < 65536 ->
  hex4 (hex_digit (c / 4096 mod 16)) (hex_digit (c / 256 mod 16))
       (hex_digit (c / 16 mod 16)) (hex_digit (c mod 16)) = Some c.
Proof.
  intros Hc. unfold hex4.
  rewrite !hex_value_digit by (apply N.mod_upper_bound; discriminate).
  f_equal.
  change 4096 with (16 * (16 * 16)). change 256 with (16 * 16).
  rewrite <- !N.Div0.div_div.
  set (q1 := c / 16). set (q2 := q1 / 16). set (q3 := q2 / 16).
  assert (c = 16 * q1 + c mod 16) as E1 by (apply N.div_mod; discriminate).
  assert (q1 = 16 * q2 + q1 mod 16) as E2 by (apply N.div_mod; discriminate).
  assert (q2 = 16 * q3 + q2 mod 16) as E3 by (apply N.div_mod; discriminate).
  assert (q3 mod 16 = q3) as E4.
  { apply N.mod_small. subst q3 q2 q1. rewrite !N.Div0.div_div.
    apply N.Div0.div_lt_upper_bound. simpl. lia. }
  rewrite E4.
  generalize dependent (c mod 16). generalize dependent (q1 mod 16).
  generalize dependent (q2 mod 16). intros. lia.
Qed.

Lemma parse_unicode_escape c t :
  c < 65536 ->
  parse_chars (UnicodeEscape c ++ t) = pmap (cons c) (parse_chars t).
Proof.
  intros Hc. unfold UnicodeEscape. cbn [app parse_chars].
  change (BACKSLASH =? QUOTE) with false.
  change (BACKSLASH =? BACKSLASH) with true.
  change (117 =? 117) with true. cbv iota.
  by rewrite (hex4_digits c Hc).
Qed.

Lemma parse_quote_unit c t :
  parse_chars (quote_unit c ++ t) = pmap (cons c) (parse_chars t).
Proof.
  unfold quote_unit.
  repeat match goal with
  | |- context [if ?c =? ?k then _ else _] =>
      destruct (N.eqb_spec c k) as [->|?]; [reflexivity|]
  end.
  destruct (c <? 32) eqn:E.
  - apply N.ltb_lt in E. apply parse_unicode_escape. lia.
  - apply N.ltb_ge in E. by apply parse_literal.
Qed.

Lemma surrogate_range c :
  is_leading_surrogate c = true \/ is_trailing_surrogate c = true ->
  55296 <= c <= 57343.
Proof.
  unfold is_leading_surrogate, is_trailing_surrogate.
  rewrite !andb_true_iff, !N.leb_le. lia.
Qed.

Lemma parse_quote_units s : forall rest,
  parse_chars (quote_units s ++ QUOTE :: rest) = POk s rest.
Proof.
  induction s as [s IH] using (induction_ltof1 _ (@length N)).
  unfold ltof in IH. intros rest. destruct s as [|c t]; [reflexivity|].
  cbn [quote_units].
  destruct (is_leading_surrogate c) eqn:El.
  - pose proof (surrogate_range c (or_introl El)) as Hc.
    destruct t as [|c2 t2].
    + rewrite parse_unicode_escape by lia. reflexivity.
    + destruct (is_trailing_surrogate c2) eqn:Et.
      * pose proof (surrogate_range c2 (or_intror Et)) as Hc2.
        cbn [app]. rewrite !parse_literal by lia.
        rewrite IH by (simpl; lia). reflexivity.
      * rewrite <- app_assoc, parse_unicode_escape by lia.
        rewrite IH by (simpl; lia). reflexivity.
  - destruct (is_trailing_surrogate c) eqn:Et.
    + pose proof (surrogate_range c (or_intror Et)) as Hc.
      rewrite <- app_assoc, parse_unicode_escape by lia.
      rewrite IH by (simpl; lia). reflexivity.
    + rewrite <- app_assoc, parse_quote_unit.
      rewrite IH by (simpl; lia). reflexivity.
Qed.

(** ** What [JSON.stringify] writes, [JSON.parse] reads *)

Lemma skip_ws_head c t : is_ws c = false -> skip_ws (c :: t) = c :: t.
Proof. intros H. simpl. by rewrite H. Qed.

Lemma accepted_skip_ws text rest :
  accepted text -> skip_ws (text ++ rest) = text ++ rest.
Proof.
  intros [Hh _]. destruct text as [|c t]; [contradiction|].
  apply skip_ws_head, Hh.
Qed.

Lemma accepted_null : accepted (utf16 "null").
Proof.
  split; [by repeat split|]. exists JNull. intros [|f] rest Hf _; [simpl in Hf; lia|].
  reflexivity.
Qed.

Lemma accepted_true : accepted (utf16 "true").
Proof.
  split; [by repeat split|]. exists (JBool true).
  intros [|f] rest Hf _; [simpl in Hf; lia|]. reflexivity.
Qed.

Lemma accepted_false : accepted (utf16 "false").
Proof.
  split; [by repeat split|]. exists (JBool false).
  intros [|f] rest Hf _; [simpl in Hf; lia|]. reflexivity.
Qed.

Lemma accepted_string s : accepted (QuoteJSONString s).
Proof.
  split; [by repeat split|]. exists (JString s).
  intros [|f] rest Hf _; [lia|].
  unfold QuoteJSONString. cbn [app parse_value].
  change (QUOTE =? 123) with false. change (QUOTE =? 91) with false.
  change (QUOTE =? QUOTE) with true. cbv iota.
  rewrite <- app_assoc. cbn [app]. by rewrite parse_quote_units.
Qed.

Lemma accepted_number d : accepted (NumberToString d).
Proof.
  destruct (NumberToString_shape d) as (sign & int & fs & ex & E & Hwf).
  destruct (number_text_head sign int fs ex Hwf) as (c & t & Et & Hc).
  destruct (NumberToString_parses d) as (dec & Hdec).
  rewrite E, Et in *.
  assert (c <> 123 /\ c <> 91 /\ c <> QUOTE /\ c <> 110 /\ c <> 116 /\
          c <> 102 /\ is_ws c = false /\ c <> 93 /\ c <> 125)
    as (H1 & H2 & H3 & H4 & H5 & H6 & H7 & H8 & H9).
  { destruct Hc as [->|Hc]; [by repeat split|].
    apply is_digit_spec in Hc. unfold QUOTE, is_ws.
    repeat split; try lia.
    repeat (apply orb_false_iff; split); apply N.eqb_neq; lia. }
  split; [by repeat split|]. exists (JNumber dec).
  intros [|f] rest Hf Hr; [lia|]. cbn [app parse_value].
  apply N.eqb_neq in H1, H2, H3, H4, H5, H6.
  rewrite H1, H2, H3, H4, H5, H6.
  change (c :: t ++ rest) with ((c :: t) ++ rest).
  by rewrite (Hdec rest Hr).
Qed.

(** Elements of an array. *)
Lemma accepted_elements x items :
  Forall accepted (x :: items) ->
  exists js, forall f rest,
    (2 * length (join_commas (x :: items)) + 4 <= f)%nat ->
    parse_elements f (join_commas (x :: items) ++ 93 :: rest) = POk js rest.
Proof.
  revert x. induction items as [|y more IH]; intros x Hall.
  - apply Forall_cons in Hall as [Hx _]. pose proof Hx as [_ [j Hj]].
    exists [j]. intros [|f] rest Hf; [lia|]. cbn [join_commas parse_elements].
    rewrite (accepted_skip_ws _ _ Hx).
    rewrite (Hj f (93 :: rest))
      by first [simpl in *; lia | right; left; reflexivity].
    reflexivity.
  - apply Forall_cons in Hall as [Hx Hrest]. pose proof Hx as [_ [j Hj]].
    destruct (IH y Hrest) as (js & Hjs).
    exists (j :: js). intros [|f] rest Hf; [lia|].
    change (join_commas (x :: y :: more))
      with (x ++ 44 :: join_commas (y :: more)) in *.
    rewrite length_app in Hf. cbn [length] in Hf.
    rewrite <- app_assoc. cbn [app parse_elements].
    rewrite (accepted_skip_ws _ _ Hx).
    rewrite (Hj f (44 :: join_commas (y :: more) ++ 93 :: rest))
      by first [lia | left; reflexivity].
    rewrite (skip_ws_head 44) by reflexivity.
    change (44 =? 44) with true. cbv iota.
    rewrite (Hjs f rest) by lia. reflexivity.
Qed.

Lemma accepted_array items :
  Forall accepted items -> accepted (91 :: join_commas items ++ [93]).
Proof.
  intros Hall. split; [by repeat split|].
  destruct items as [|x items].
  - exists (JArray []). intros [|f] rest Hf _; [lia|]. reflexivity.
  - destruct (accepted_elements x items Hall) as (js & Hjs).
    exists (JArray js). intros [|f] rest Hf _; [lia|].
    cbn [length] in Hf. rewrite length_app in Hf. cbn [length] in Hf.
    cbn [app]. rewrite <- !app_assoc. cbn [app parse_value].
    change (91 =? 123) with false. change (91 =? 91) with true. cbv iota.
    assert (exists c t, join_commas (x :: items) = c :: t /\
                        is_ws c = false /\ c <> 93) as (c & t & Ej & Hws & Hc).
    { apply Forall_cons in Hall as [[Hh _] _].
      destruct x as [|c x']; [contradiction|].
      destruct items; [exists c, x' | eexists c, _]; (split; [reflexivity | tauto]). }
    specialize (Hjs f rest). rewrite Ej in *. cbn [app] in *.
    rewrite (skip_ws_head _ _ Hws).
    apply N.eqb_neq in Hc. rewrite Hc.
    rewrite Hjs by (cbn [length] in *; lia). reflexivity.
Qed.

Lemma member_text_head kv :
  exists t, member_text kv = QUOTE :: t.
Proof. destruct kv as [k v]. unfold member_text, QuoteJSONString. simpl. eauto. Qed.

Lemma parse_member k v tail f j :
  accepted v ->
  parse_value f (v ++ tail) = POk j tail ->
  match skip_ws (member_text (k, v) ++ tail) with
  | [] => PError
  | q :: s1 =>
      if q =? QUOTE then
        match parse_chars s1 with
        | POk k' s2 =>
            match skip_ws s2 with
            | [] => PError
            | c :: s3 =>
                if c =? 58 then
                  match parse_value f (skip_ws s3) with
                  | POk v' r =>
                      match skip_ws r with
                      | [] => PError
                      | c' :: r' =>
                          if c' =? 44 then
                            pmap (cons (k', v')) (parse_members f r')
                          else if c' =? 125 then POk [(k', v')] r'
                          else PError
                      end
                  | PError => PError
                  | PFuel => PFuel
                  end
                else PError
            end
        | PError => PError
        | PFuel => PFuel
        end
      else PError
  end =
  match skip_ws tail with
  | [] => PError
  | c' :: r' =>
      if c' =? 44 then pmap (cons (k, j)) (parse_members f r')
      else if c' =? 125 then POk [(k, j)] r'
      else PError
  end.
Proof.
  intros Hv Hj. unfold member_text, QuoteJSONString. cbn [fst snd app].
  rewrite <- !app_assoc. cbn [app].
  rewrite (skip_ws_head QUOTE) by reflexivity.
  change (QUOTE =? QUOTE) with true. cbv iota.
  rewrite parse_quote_units.
  rewrite (skip_ws_head 58) by reflexivity.
  change (58 =? 58) with true. cbv iota.
  by rewrite (accepted_skip_ws _ _ Hv), Hj.
Qed.

Lemma accepted_members kv kvs :
  Forall (fun kv => accepted (snd kv)) (kv :: kvs) ->
  exists ms, forall f rest,
    (2 * length (join_commas (map member_text (kv :: kvs))) + 4 <= f)%nat ->
    parse_members f (join_commas (map member_text (kv :: kvs)) ++ 125 :: rest)
    = POk ms rest.
Proof.
  revert kv. induction kvs as [|kv' more IH]; intros [k v] Hall.
  - apply Forall_cons in Hall as [Hv _]. cbn [snd] in Hv.
    pose proof Hv as [_ [j Hj]].
    exists [(k, j)]. intros [|f] rest Hf; [lia|].
    cbn [map join_commas parse_members].
    assert (length (member_text (k, v)) = length (QuoteJSONString k) + 1 + length v)%nat as El.
    { unfold member_text. rewrite length_app. simpl. lia. }
    cbn [map join_commas] in Hf.
    replace (member_text (k, v) ++ 125 :: rest)
      with (member_text (k, v) ++ (125 :: rest)) by reflexivity.
    unfold member_text at 1. cbn [fst snd]. rewrite <- app_assoc. cbn [app].
    pose proof (parse_member k v (125 :: rest) f j Hv) as Hm.
    unfold member_text in Hm. cbn [fst snd] in Hm.
    rewrite <- app_assoc in Hm. cbn [app] in Hm.
    rewrite Hm; [reflexivity|].
    apply Hj; [lia | right; right; reflexivity].
  - apply Forall_cons in Hall as [Hv Hrest]. cbn [snd] in Hv.
    pose proof Hv as [_ [j Hj]].
    destruct (IH kv' Hrest) as (ms & Hms).
    exists ((k, j) :: ms). intros [|f] rest Hf; [lia|].
    change (join_commas (map member_text ((k, v) :: kv' :: more)))
      with (member_text (k, v) ++ 44 :: join_commas (map member_text (kv' :: more))) in *.
    set (J := join_commas (map member_text (kv' :: more))) in *.
    assert (length (member_text (k, v)) = length (QuoteJSONString k) + 1 + length v)%nat as El.
    { unfold member_text. rewrite length_app. simpl. lia. }
    rewrite length_app in Hf. cbn [length] in Hf.
    rewrite <- app_assoc. cbn [app parse_members].
    unfold member_text at 1. cbn [fst snd]. rewrite <- app_assoc. cbn [app].
    pose proof (parse_member k v (44 :: J ++ 125 :: rest) f j Hv) as Hm.
    unfold member_text in Hm. cbn [fst snd] in Hm.
    rewrite <- app_assoc in Hm. cbn [app] in Hm.
    rewrite Hm.
    + rewrite (skip_ws_head 44) by reflexivity.
      change (44 =? 44) with true. cbv iota.
      rewrite (Hms f rest) by lia. reflexivity.
    + apply Hj; [lia | left; reflexivity].
Qed.

Lemma accepted_object kvs :
  Forall (fun kv => accepted (snd kv)) kvs ->
  accepted (123 :: join_commas (map member_text kvs) ++ [125]).
Proof.
  intros Hall. split; [by repeat split|].
  destruct kvs as [|kv kvs].
  - exists (JObject []). intros [|f] rest Hf _; [lia|]. reflexivity.
  - destruct (accepted_members kv kvs Hall) as (ms & Hms).
    exists (JObject (build_object ms)). intros [|f] rest Hf _; [lia|].
    cbn [length] in Hf. rewrite length_app in Hf. cbn [length] in Hf.
    cbn [app]. rewrite <- !app_assoc. cbn [app parse_value].
    change (123 =? 123) with true. cbv iota.
    assert (exists t, join_commas (map member_text (kv :: kvs)) = QUOTE :: t)
      as (t & Ej).
    { destruct (member_text_head kv) as (t & Et). cbn [map join_commas].
      rewrite Et. destruct (map member_text kvs); simpl; eauto. }
    specialize (Hms f rest). rewrite Ej in *. cbn [app] in *.
    rewrite (skip_ws_head QUOTE) by reflexivity.
    change (QUOTE =? 125) with false. cbv iota.
    rewrite Hms by (cbn [length] in *; lia). reflexivity.
Qed.

(** The items [serialize_elements] and [serialize_members] produce. *)
Lemma serialize_elements_accepted rec vs items :
  (forall v t, rec v = SText t -> accepted t) ->
  serialize_elements rec vs = Return (Some items) ->
  Forall accepted items.
Proof.
  intros Hrec. revert items. induction vs as [|v vs IH]; intros items; simpl.
  - intros [= <-]. constructor.
  - destruct (rec v) as [t| | |] eqn:Ev; try discriminate;
      destruct (serialize_elements rec vs) as [[its|]|]; try discriminate;
      intros [= <-]; constructor; eauto using accepted_null.
Qed.

Lemma serialize_members_accepted rec ms items :
  (forall v t, rec v = SText t -> accepted t) ->
  serialize_members rec ms = Return (Some items) ->
  exists kvs, items = map member_text kvs /\
              Forall (fun kv => accepted (snd kv)) kvs.
Proof.
  intros Hrec. revert items. induction ms as [|[k v] ms IH]; intros items; simpl.
  - intros [= <-]. exists []. split; [reflexivity | constructor].
  - destruct (rec v) as [t| | |] eqn:Ev; try discriminate;
      destruct (serialize_members rec ms) as [[its|]|]; try discriminate;
      intros [= <-]; destruct (IH its eq_refl) as (kvs & -> & Hk).
    + exists ((k, t) :: kvs). split; [reflexivity|]. constructor; eauto.
    + eauto.
Qed.

Lemma serialize_accepted h f : forall stack v text,
  SerializeJSONProperty h f stack v = SText text -> accepted text.
Proof.
  induction f as [|f IH]; intros stack v text; simpl; [discriminate|].
  destruct v as [| |[]|[| |d]| | | |a]; try discriminate;
    try (intros [= <-];
         first [apply accepted_null | apply accepted_true
               | apply accepted_false | apply accepted_number
               | apply accepted_string]).
  destruct (h !! a) as [[|vs|ms]|]; try discriminate;
    (case_bool_decide; [discriminate|]).
  - destruct (serialize_elements _ vs) as [[items|]|] eqn:E; simpl;
      try discriminate.
    intros [= <-]. apply accepted_array.
    eapply serialize_elements_accepted, E. intros; eapply IH; eauto.
  - destruct (serialize_members _ ms) as [[items|]|] eqn:E; simpl;
      try discriminate.
    intros [= <-].
    destruct (serialize_members_accepted _ _ _
                (fun v t H => IH _ v t H) E) as (kvs & -> & Hk).
    by apply accepted_object.
Qed.

(** Every text [JSON.stringify] returns is one [JSON.parse] reads. *)
Lemma parse_stringify h v text :
  stringify h v = Return (Some text) -> exists j, parse text = Return j.
Proof.
  unfold stringify.
  destruct (SerializeJSONProperty h (S (length h)) [] v) as [t| | |] eqn:E;
    try discriminate.
  intros [= <-]. pose proof (serialize_accepted _ _ _ _ _ E) as Ha.
  pose proof Ha as [_ [j Hj]]. exists j. unfold parse, parse_fuel.
  rewrite <- (app_nil_r t) at 2. rewrite (accepted_skip_ws _ _ Ha).
  rewrite Hj; [reflexivity | lia | exact I].
Qed.

(** ** The serialiser stays within its recursion bound *)











End JSONFacts.

Lemma deliver_waiting_failure x ev w :
  waiting x w -> (forall s b, ev <> Load s b) ->
  state_of x (deliver x ev w) = Some Pending /\
  uncaught (deliver x ev w) = uncaught w.
Proof.
  intros (Hp & o & Ho & Hs) Hev.
  rewrite (deliver_failure _ _ _ _ Ho Hs Hev). unfold state_of. simpl. auto.
Qed.

(** A call, unrelated activity, then any of the four events: the state of
    the promise and the exceptions left uncaught depend on the event only. *)
Lemma call_ends h pre i mid ev p w1 :
  invoke i (run pre (initial h)) = (Return p, w1) ->
  quiet (next_xhr (run pre (initial h))) mid = true ->
  state_of p (deliver (next_xhr (run pre (initial h))) ev (run mid w1))
    = Some (fst (outcome_of ev)) /\
  uncaught (deliver (next_xhr (run pre (initial h))) ev (run mid w1))
    = uncaught (run mid w1) ++ snd (outcome_of ev).
Proof.
  intros Hi Hq. destruct ev as [s b| | |].
  - apply (call_completes h pre i mid s b p w1 Hi Hq).
  - destruct (invoke_returns i _ p w1 (reachable_consistent h pre) Hi)
      as (-> & Hc1 & Hw1). simpl. rewrite app_nil_r.
    apply deliver_waiting_failure; [by apply waiting_run | discriminate].
  - destruct (invoke_returns i _ p w1 (reachable_consistent h pre) Hi)
      as (-> & Hc1 & Hw1). simpl. rewrite app_nil_r.
    apply deliver_waiting_failure; [by apply waiting_run | discriminate].
  - destruct (invoke_returns i _ p w1 (reachable_consistent h pre) Hi)
      as (-> & Hc1 & Hw1). simpl. rewrite app_nil_r.
    apply deliver_waiting_failure; [by apply waiting_run | discriminate].
Qed.

(** * The claims *)

(** C1. For every completed response, the promise returned by [get(url)]
    resolves to [{status, data}], where [status] is the status code of the
    response and [data] the result of parsing its body as JSON.  The call
    may be made at any point of a run, and anything that does not concern
    its request may happen before the response arrives. *)
Theorem get_resolves_with_status_and_data h pre u mid s b d :
  quiet (next_xhr (run pre (initial h))) mid = true ->
  JSON.parse b = Return d ->
  exists p w1,
    get u (run pre (initial h)) = (Return p, w1) /\
    state_of p (deliver (next_xhr (run pre (initial h))) (Load s b)
                  (run mid w1))
      = Some (Fulfilled {| status := s; data := d |}).
Proof.
  intros Hq Hd. destruct (get_returns u (run pre (initial h))) as (p & w1 & Hg).
  exists p, w1. split; [assumption|].
  destruct (call_completes h pre (Get u) mid s b p w1 Hg Hq) as [H _].
  rewrite H. unfold completion. by rewrite Hd.
Qed.

(** C1, the instance of the specification: status 200 and the body
    [{"id":"alice","score":5}]. *)
Lemma get_resolves_alice :
  exists p w1,
    get "https://example.com/alice" (run earlier (initial score_heap))
      = (Return p, w1) /\
    state_of p
      (deliver (next_xhr (run earlier (initial score_heap)))
         (Load 200 (json_text "{'id':'alice','score':5}"))
         (run [Deliver 1 (Load 201 (json_text "{'id':'bob','score':5}"))] w1))
      = Some (Fulfilled {| status := 200; data := alice |}).
Proof.
  apply (get_resolves_with_status_and_data score_heap earlier
           "https://example.com/alice"
           [Deliver 1 (Load 201 (json_text "{'id':'bob','score':5}"))]
           200 (json_text "{'id':'alice','score':5}") alice);
    reflexivity.
Defined.

(** C2. Whenever the exchange completes with a body that is valid JSON, the
    promise of [get] and the promise of [post] are fulfilled, and not
    rejected, whatever the status code (a 4xx or 5xx code included). *)
Theorem completion_with_valid_body_resolves h pre i mid s b d p w1 :
  invoke i (run pre (initial h)) = (Return p, w1) ->
  quiet (next_xhr (run pre (initial h))) mid = true ->
  JSON.parse b = Return d ->
  state_of p (deliver (next_xhr (run pre (initial h))) (Load s b)
                (run mid w1))
    = Some (Fulfilled {| status := s; data := d |}) /\
  forall e,
    state_of p (deliver (next_xhr (run pre (initial h))) (Load s b)
                  (run mid w1))
      <> Some (Rejected e).
Proof.
  intros Hi Hq Hd.
  destruct (call_completes h pre i mid s b p w1 Hi Hq) as [H _].
  rewrite H. unfold completion. rewrite Hd. split; [reflexivity|].
  intros e [=].
Qed.

(** C2, the instance of the specification: status 400 and the body
    [{"Error":"bad score"}], for [get] and for [post]. *)
Lemma bad_request_resolves :
  (state_of 2
     (deliver (next_xhr (run earlier (initial score_heap)))
        (Load 400 (json_text "{'Error':'bad score'}"))
        (run [] (snd (get "https://example.com/alice"
                        (run earlier (initial score_heap))))))
     = Some (Fulfilled {| status := 400; data := bad_score |}) /\
   forall e,
     state_of 2
       (deliver (next_xhr (run earlier (initial score_heap)))
          (Load 400 (json_text "{'Error':'bad score'}"))
          (run [] (snd (get "https://example.com/alice"
                          (run earlier (initial score_heap))))))
       <> Some (Rejected e)) /\
  (state_of 2
     (deliver (next_xhr (run earlier (initial score_heap)))
        (Load 400 (json_text "{'Error':'bad score'}"))
        (run [] (snd (post "https://example.com/alice" (JSON.VObject 0)
                        (run earlier (initial score_heap))))))
     = Some (Fulfilled {| status := 400; data := bad_score |}) /\
   forall e,
     state_of 2
       (deliver (next_xhr (run earlier (initial score_heap)))
          (Load 400 (json_text "{'Error':'bad score'}"))
          (run [] (snd (post "https://example.com/alice" (JSON.VObject 0)
                          (run earlier (initial score_heap))))))
       <> Some (Rejected e)).
Proof.
  split.
  - apply (completion_with_valid_body_resolves score_heap earlier
             (Get "https://example.com/alice") [] 400
             (json_text "{'Error':'bad score'}") bad_score 2
             (snd (get "https://example.com/alice"
                     (run earlier (initial score_heap)))));
      (vm_compute; reflexivity).
  - apply (completion_with_valid_body_resolves score_heap earlier
             (Post "https://example.com/alice" (JSON.VObject 0)) [] 400
             (json_text "{'Error':'bad score'}") bad_score 2
             (snd (post "https://example.com/alice" (JSON.VObject 0)
                     (run earlier (initial score_heap)))));
      (vm_compute; reflexivity).
Defined.

(** C3 as stated fails: a response completes with the body [<html>], which
    is not JSON, and the promise of [get] is not rejected.  It is still
    pending: the exception is thrown inside the [onload] handler, after the
    executor of the promise has returned, and [reject] is never called. *)
Lemma malformed_body_does_not_reject :
  let w1 := snd (get "https://example.com/alice" (initial [])) in
  let w2 := deliver 0 (Load 200 (utf16 "<html>")) w1 in
  get "https://example.com/alice" (initial []) = (Return 0%nat, w1) /\
  JSON.parse (utf16 "<html>") = Throw SyntaxError /\
  state_of 0 w2 = Some Pending /\
  ~ (exists e, state_of 0 w2 = Some (Rejected e)).
Proof.
  vm_compute. repeat split. intros [e [=]].
Qed.

(** C3, amended.  When the exchange completes with a body that is not valid
    JSON, the promise of [get] (and likewise of [post]) neither resolves
    nor rejects: it stays pending.  The parse failure is a [SyntaxError]
    raised in the [onload] handler, where it is left uncaught; it is the
    one exception the completion raises. *)
Theorem completion_with_malformed_body_stays_pending h pre i mid s b e p w1 :
  invoke i (run pre (initial h)) = (Return p, w1) ->
  quiet (next_xhr (run pre (initial h))) mid = true ->
  JSON.parse b = Throw e ->
  e = SyntaxError /\
  state_of p (deliver (next_xhr (run pre (initial h))) (Load s b)
                (run mid w1))
    = Some Pending /\
  uncaught (deliver (next_xhr (run pre (initial h))) (Load s b) (run mid w1))
    = uncaught (run mid w1) ++ [SyntaxError].
Proof.
  intros Hi Hq Hd.
  pose proof (JSONFacts.parse_throws b e Hd) as ->.
  destruct (call_completes h pre i mid s b p w1 Hi Hq) as [H1 H2].
  rewrite H1, H2. unfold completion, escaping. rewrite Hd. auto.
Qed.

(** C3, amended, at a 204 answer to [post], whose body is empty. *)
Lemma malformed_body_stays_pending :
  SyntaxError = SyntaxError /\
  state_of 2
    (deliver (next_xhr (run earlier (initial score_heap))) (Load 204 [])
       (run [] (snd (post "https://example.com/alice" (JSON.VObject 0)
                       (run earlier (initial score_heap))))))
    = Some Pending /\
  uncaught
    (deliver (next_xhr (run earlier (initial score_heap))) (Load 204 [])
       (run [] (snd (post "https://example.com/alice" (JSON.VObject 0)
                       (run earlier (initial score_heap))))))
    = uncaught
        (run [] (snd (post "https://example.com/alice" (JSON.VObject 0)
                        (run earlier (initial score_heap)))))
      ++ [SyntaxError].
Proof.
  apply (completion_with_malformed_body_stays_pending score_heap earlier
           (Post "https://example.com/alice" (JSON.VObject 0)) [] 204 []
           SyntaxError 2
           (snd (post "https://example.com/alice" (JSON.VObject 0)
                   (run earlier (initial score_heap)))));
    (vm_compute; reflexivity).
Defined.

(** C4. [post(url, data)] sends one request: a POST to [url] with the
    header [Content-Type: application/json] and, as its body, the text
    [JSON.stringify(data)] ([text] is [None] when that is [undefined], and
    the request then has no body). *)
Theorem post_sends_serialized_data w u d text :
  JSON.stringify (heap_of w) d = Return text ->
  exists p w1,
    post u d w = (Return p, w1) /\
    wire w1 = wire w ++
      [{| method := "POST"; url := u;
          headers := [("Content-Type", "application/json")];
          body := text |}].
Proof.
  intros Hs. rewrite post_unfold, Hs. eexists _, _. split; reflexivity.
Qed.

(** C4, the instance of the specification: [post(url, {score: 5})] sends
    the text [{"score":5}]. *)
Lemma post_sends_score :
  exists p w1,
    post "https://example.com/alice" (JSON.VObject 0) (initial score_heap)
      = (Return p, w1) /\
    wire w1 = wire (initial score_heap) ++
      [{| method := "POST"; url := "https://example.com/alice";
          headers := [("Content-Type", "application/json")];
          body := Some (json_text "{'score':5}") |}].
Proof.
  apply (post_sends_serialized_data (initial score_heap)
           "https://example.com/alice" (JSON.VObject 0)
           (Some (json_text "{'score':5}"))).
  vm_compute; reflexivity.
Defined.

(** C5. The status code of the response, whatever integer it is, is the
    [status] field of the value the promise resolves with, and the value
    keeps its shape: its [data] field is the parsed body. *)
Theorem status_passes_through h pre i mid s b d p w1 :
  invoke i (run pre (initial h)) = (Return p, w1) ->
  quiet (next_xhr (run pre (initial h))) mid = true ->
  JSON.parse b = Return d ->
  exists r,
    state_of p (deliver (next_xhr (run pre (initial h))) (Load s b)
                  (run mid w1)) = Some (Fulfilled r) /\
    status r = s /\ data r = d.
Proof.
  intros Hi Hq Hd.
  destruct (call_completes h pre i mid s b p w1 Hi Hq) as [H _].
  exists {| status := s; data := d |}. rewrite H. unfold completion.
  rewrite Hd. auto.
Qed.

(** C5 at a code that is no HTTP status at all. *)
Lemma status_passes_through_unknown :
  exists r,
    state_of 0 (deliver (next_xhr (run [] (initial [])))
                  (Load (-7) (json_text "null"))
                  (run [] (snd (get "https://example.com/alice"
                                  (run [] (initial [])))))) =
      Some (Fulfilled r) /\
    status r = (-7)%Z /\ data r = JNull.
Proof.
  apply (status_passes_through [] [] (Get "https://example.com/alice") []
           (-7) (json_text "null") JNull 0
           (snd (get "https://example.com/alice" (run [] (initial [])))));
    (vm_compute; reflexivity).
Defined.

(** C6. [post] handles the end of its request as [get] does: for the same
    event (a completion with the same status and body, or the same
    failure), made in any two contexts, the two promises end in the same
    state and the same exceptions, if any, are left uncaught. *)
Theorem post_settles_like_get
    h pre u mid p w1 h' pre' u' d mid' p' w1' ev :
  get u (run pre (initial h)) = (Return p, w1) ->
  post u' d (run pre' (initial h')) = (Return p', w1') ->
  quiet (next_xhr (run pre (initial h))) mid = true ->
  quiet (next_xhr (run pre' (initial h'))) mid' = true ->
  state_of p (deliver (next_xhr (run pre (initial h))) ev (run mid w1))
    = state_of p' (deliver (next_xhr (run pre' (initial h'))) ev
                     (run mid' w1')) /\
  exists es,
    uncaught (deliver (next_xhr (run pre (initial h))) ev (run mid w1))
      = uncaught (run mid w1) ++ es /\
    uncaught (deliver (next_xhr (run pre' (initial h'))) ev (run mid' w1'))
      = uncaught (run mid' w1') ++ es.
Proof.
  intros Hg Hp Hq Hq'.
  destruct (call_ends h pre (Get u) mid ev p w1 Hg Hq) as [H1 H2].
  destruct (call_ends h' pre' (Post u' d) mid' ev p' w1' Hp Hq') as [H3 H4].
  rewrite H1, H3. split; [reflexivity|]. eauto.
Qed.

(** C6 for a 201 answer, with [get] called first in a fresh page and [post]
    after some activity. *)
Lemma post_settles_like_get_example :
  state_of 0
    (deliver (next_xhr (run [] (initial [])))
       (Load 201 (json_text "{'id':'alice','score':5}"))
       (run [] (snd (get "https://example.com/alice" (run [] (initial []))))))
    = state_of 2
        (deliver (next_xhr (run earlier (initial score_heap)))
           (Load 201 (json_text "{'id':'alice','score':5}"))
           (run [Mutate []]
              (snd (post "https://example.com/alice" (JSON.VObject 0)
                      (run earlier (initial score_heap)))))) /\
  exists es,
    uncaught
      (deliver (next_xhr (run [] (initial [])))
         (Load 201 (json_text "{'id':'alice','score':5}"))
         (run [] (snd (get "https://example.com/alice"
                         (run [] (initial []))))))
      = uncaught
          (run [] (snd (get "https://example.com/alice"
                          (run [] (initial []))))) ++ es /\
    uncaught
      (deliver (next_xhr (run earlier (initial score_heap)))
         (Load 201 (json_text "{'id':'alice','score':5}"))
         (run [Mutate []]
            (snd (post "https://example.com/alice" (JSON.VObject 0)
                    (run earlier (initial score_heap))))))
      = uncaught
          (run [Mutate []]
             (snd (post "https://example.com/alice" (JSON.VObject 0)
                     (run earlier (initial score_heap))))) ++ es.
Proof.
  apply (post_settles_like_get
           [] [] "https://example.com/alice" [] 0
           (snd (get "https://example.com/alice" (run [] (initial []))))
           score_heap earlier "https://example.com/alice" (JSON.VObject 0)
           [Mutate []] 2
           (snd (post "https://example.com/alice" (JSON.VObject 0)
                   (run earlier (initial score_heap))))
           (Load 201 (json_text "{'id':'alice','score':5}")));
    (vm_compute; reflexivity).
Defined.

(** C7. When no [load] event is ever fired for the request of a call of
    [get] or [post], the promise of the call is pending after any run,
    however long: it neither resolves nor rejects.  The request may fail
    with a network error, a timeout or an abort during the run. *)
Theorem promise_hangs_without_load h pre i mid p w1 :
  invoke i (run pre (initial h)) = (Return p, w1) ->
  loadless (next_xhr (run pre (initial h))) mid = true ->
  state_of p (run mid w1) = Some Pending.
Proof. intros Hi Hq. exact (call_hangs h pre i mid p w1 Hi Hq). Qed.

(** C7 for a [get] whose request meets a network error: the promise is
    pending after the error, and after later answers to other requests. *)
Lemma promise_hangs_after_network_error :
  state_of 2
    (run [Deliver 2 NetworkError; Deliver 2 Timeout;
          Call (Get "https://example.com/bob");
          Deliver 3 (Load 200 (json_text "null"))]
       (snd (get "https://example.com/alice"
               (run earlier (initial score_heap)))))
    = Some Pending.
Proof.
  apply (promise_hangs_without_load score_heap earlier
           (Get "https://example.com/alice")
           [Deliver 2 NetworkError; Deliver 2 Timeout;
            Call (Get "https://example.com/bob");
            Deliver 3 (Load 200 (json_text "null"))]
           2
           (snd (get "https://example.com/alice"
                   (run earlier (initial score_heap)))));
    (vm_compute; reflexivity).
Defined.

(** C9. [post] serialises its argument before it creates the promise: when
    [JSON.stringify(data)] throws, [post] throws the same exception to its
    caller and the world is as it was (no promise is created, no request
    object, and nothing is sent). *)
Theorem post_throws_at_the_call w u d e :
  JSON.stringify (heap_of w) d = Throw e ->
  post u d w = (Throw e, w).
Proof. intros Hs. by rewrite post_unfold, Hs. Qed.

(** C9 for a circular structure: [o.self = o; post(url, o)]. *)
Lemma post_throws_on_circular_structure :
  post "https://example.com/alice" (JSON.VObject 0)
    (run earlier (initial cyclic_heap))
  = (Throw TypeError, run earlier (initial cyclic_heap)).
Proof.
  apply (post_throws_at_the_call (run earlier (initial cyclic_heap))
           "https://example.com/alice" (JSON.VObject 0) TypeError).
  vm_compute; reflexivity.
Defined.

(** C10. The value a promise resolves with is a function of the completion
    event alone: two calls, each [get] or [post], with any urls and data,
    made in any two reachable worlds and followed by any unrelated
    activity, end in the same state when their requests complete with the
    same status and body. *)
Theorem resolved_value_depends_on_completion_only
    h pre i mid p w1 h' pre' i' mid' p' w1' s b :
  invoke i (run pre (initial h)) = (Return p, w1) ->
  invoke i' (run pre' (initial h')) = (Return p', w1') ->
  quiet (next_xhr (run pre (initial h))) mid = true ->
  quiet (next_xhr (run pre' (initial h'))) mid' = true ->
  state_of p (deliver (next_xhr (run pre (initial h))) (Load s b)
                (run mid w1))
    = state_of p' (deliver (next_xhr (run pre' (initial h'))) (Load s b)
                     (run mid' w1')).
Proof.
  intros Hi Hi' Hq Hq'.
  destruct (call_completes h pre i mid s b p w1 Hi Hq) as [-> _].
  destruct (call_completes h' pre' i' mid' s b p' w1' Hi' Hq') as [-> _].
  reflexivity.
Qed.

(** C10 for two calls of [post] with different urls and data, made in
    different worlds. *)
Lemma resolved_value_depends_on_completion_only_example :
  state_of 0
    (deliver (next_xhr (run [] (initial score_heap)))
       (Load 200 (json_text "{'id':'alice','score':5}"))
       (run [] (snd (post "https://example.com/alice" (JSON.VObject 0)
                       (run [] (initial score_heap))))))
    = state_of 2
        (deliver (next_xhr (run earlier (initial score_heap)))
           (Load 200 (json_text "{'id':'alice','score':5}"))
           (run [Call (Get "https://example.com/carol"); Mutate []]
              (snd (post "https://example.com/bob" JSON.VNull
                      (run earlier (initial score_heap)))))).
Proof.
  apply (resolved_value_depends_on_completion_only
           score_heap [] (Post "https://example.com/alice" (JSON.VObject 0))
           [] 0
           (snd (post "https://example.com/alice" (JSON.VObject 0)
                   (run [] (initial score_heap))))
           score_heap earlier (Post "https://example.com/bob" JSON.VNull)
           [Call (Get "https://example.com/carol"); Mutate []] 2
           (snd (post "https://example.com/bob" JSON.VNull
                   (run earlier (initial score_heap))))
           200 (json_text "{'id':'alice','score':5}"));
    (vm_compute; reflexivity).
Defined.

Lemma run_app acts acts' w : run (acts ++ acts') w = run acts' (run acts w).
Proof. unfold run. by rewrite fold_left_app. Qed.

Lemma last_snoc {A} (l : list A) (x : A) : last (l ++ [x]) = Some x.
Proof. induction l as [|y [|z l] IH]; try reflexivity. exact IH. Qed.

(** C8. With a pass-through backend, [post(url, X)] followed, once it is
    answered, by [get(url)]: for every [X] that [JSON.stringify] turns into
    a text, that text parses, and the promise of [get] resolves with the
    status the backend gave and, as data, the result of parsing the
    serialisation of [X]. *)
Theorem post_then_get_round_trip code db h pre u X text :
  JSON.stringify (heap_of (run pre (initial h))) X = Return (Some text) ->
  exists j,
    JSON.parse text = Return j /\
    post_then_get code db u X (run pre (initial h)) =
      Some (Fulfilled
              {| status := code {| method := "GET"; url := u;
                                   headers := []; body := None |};
                 data := j |}).
Proof.
  intros Hs. destruct (JSONFacts.parse_stringify _ _ _ Hs) as (j & Hj).
  exists j. split; [assumption|].
  set (w := run pre (initial h)) in *.
  unfold post_then_get. rewrite post_unfold, Hs.
  set (r1 := {| method := "POST"; url := u; headers := json_headers;
                body := Some text |}).
  set (w1 := after_call w _ r1).
  assert (serve code (next_xhr w) (db, w1) =
          (<[u := text]> db, deliver (next_xhr w) (Load (code r1) text) w1))
    as Eserve.
  { unfold serve. cbn [snd fst]. subst w1. cbn [wire after_call].
    rewrite last_snoc. reflexivity. }
  rewrite Eserve. cbn [fst snd].
  set (x1 := next_xhr w).
  set (w2 := deliver x1 (Load (code r1) text) w1).
  assert (w2 = run (pre ++ [Call (Post u X); Deliver x1 (Load (code r1) text)])
                 (initial h)) as Ew2.
  { rewrite run_app. fold w. cbn [run fold_left step invoke].
    rewrite post_unfold, Hs. reflexivity. }
  rewrite get_unfold.
  set (r2 := {| method := "GET"; url := u; headers := []; body := None |}).
  set (w3 := after_call w2 _ r2).
  assert (serve code (next_xhr w2) (<[u := text]> db, w3) =
          (<[u := text]> db, deliver (next_xhr w2) (Load (code r2) text) w3))
    as Eserve2.
  { unfold serve. cbn [snd fst]. subst w3. cbn [wire after_call].
    rewrite last_snoc. unfold echo. cbn [method url bool_decide].
    rewrite bool_decide_eq_false_2 by discriminate. cbn [fst snd].
    by rewrite lookup_insert_eq. }
  rewrite Eserve2. cbn [snd].
  pose proof (call_completes h
                (pre ++ [Call (Post u X); Deliver x1 (Load (code r1) text)])
                (Get u) [] (code r2) text (length (promises w2)) w3) as Hc.
  cbv zeta in Hc. rewrite <- Ew2 in Hc. cbn [run fold_left] in Hc.
  destruct Hc as [Hc _]; [apply get_unfold | reflexivity |].
  rewrite Hc. unfold completion. by rewrite Hj.
Qed.

(** C8 for [X = { score: 5 }] and a backend that always answers 200: the
    promise of [get] resolves with [{ status: 200, data: { score: 5 } }]. *)
Lemma post_then_get_score :
  post_then_get (fun _ => 200%Z) ∅ "https://example.com/alice"
    (JSON.VObject 0) (run earlier (initial score_heap)) =
  Some (Fulfilled
          {| status := 200;
             data := JObject [(utf16 "score", JNumber (decimal_of_Z 5))] |}).
Proof.
  destruct (post_then_get_round_trip (fun _ => 200%Z) ∅ score_heap earlier
              "https://example.com/alice" (JSON.VObject 0)
              (json_text "{'score':5}") eq_refl) as (j & Hj & Hp).
  rewrite Hp. vm_compute in Hj. injection Hj as <-. reflexivity.
Defined.

(** * Further properties of [get] and [post] *)

(** ** Every promise is explained by its request object *)

Lemma completion_of_failure : completion 0 [] = Pending.
Proof. reflexivity. Qed.

Lemma explained_initial h : explained (initial h).
Proof. intros i o H. destruct i; discriminate H. Qed.

Lemma explained_after_call w o r :
  consistent w -> explained w ->
  XHR.send_flag o = true -> XHR.readyState o = XHR.OPENED ->
  explained (after_call w o r).
Proof.
  intros Hc He Hs Hr i o' Hi. simpl in *.
  destruct (decide (i < length (xhrs w))%nat) as [Hlt|Hge].
  - rewrite lookup_snoc_lt in Hi by assumption.
    rewrite lookup_snoc_lt by (rewrite (same_length _ Hc); assumption).
    by apply He.
  - assert (i = length (xhrs w)) as ->.
    { apply lookup_lt_Some in Hi. rewrite length_app in Hi. simpl in Hi. lia. }
    rewrite lookup_snoc in Hi. injection Hi as <-.
    rewrite <- (same_length _ Hc), lookup_snoc.
    unfold promise_of. rewrite Hs. auto.
Qed.

Lemma explained_deliver x ev w :
  consistent w -> explained w -> explained (deliver x ev w).
Proof.
  intros Hc He i o Hi.
  destruct (decide (i = x)) as [->|Hne].
  2: { destruct (deliver_effect x ev w Hc) as (_ & _ & _ & Hf).
       destruct (Hf i Hne) as [Hp Hx]. rewrite Hp. rewrite Hx in Hi.
       by apply He. }
  destruct (xhrs w !! x) as [o0|] eqn:Hx.
  2: { rewrite deliver_idle in * by (intros o' Ho'; congruence). congruence. }
  destruct (XHR.send_flag o0) eqn:Hs.
  2: { rewrite deliver_idle in * by (intros o' Ho'; congruence). by apply He. }
  destruct (He x o0 Hx) as [_ Hp0]. unfold promise_of in Hp0. rewrite Hs in Hp0.
  assert (x < length (xhrs w))%nat as Hlt by (eapply lookup_lt_Some, Hx).
  destruct ev as [s b| | |].
  - rewrite (deliver_load _ _ _ _ _ Hx Hs (own_handler _ Hc _ _ Hx)) in *.
    cbv zeta in *. unfold promise_of, completion.
    destruct (JSON.parse b) as [d|e] eqn:Ep.
    + destruct (settle_rest x (Fulfilled {| status := s; data := d |})
                  (set_xhrs <[x:=finish o0 s b]> w)) as (_ & Hxs & _ & _).
      rewrite Hxs in Hi. simpl in Hi.
      rewrite list_lookup_insert_eq in Hi by assumption. injection Hi as <-.
      simpl. rewrite Ep. split; [reflexivity|].
      rewrite settle_promises. simpl. rewrite Hp0.
      apply list_lookup_insert_eq. eapply lookup_lt_Some, Hp0.
    + simpl in Hi. rewrite list_lookup_insert_eq in Hi by assumption.
      injection Hi as <-. simpl. rewrite Ep. auto.
  - rewrite (deliver_failure _ _ _ _ Hx Hs) in * by discriminate.
    simpl in Hi. rewrite list_lookup_insert_eq in Hi by assumption.
    injection Hi as <-. simpl. auto.
  - rewrite (deliver_failure _ _ _ _ Hx Hs) in * by discriminate.
    simpl in Hi. rewrite list_lookup_insert_eq in Hi by assumption.
    injection Hi as <-. simpl. auto.
  - rewrite (deliver_failure _ _ _ _ Hx Hs) in * by discriminate.
    simpl in Hi. rewrite list_lookup_insert_eq in Hi by assumption.
    injection Hi as <-. simpl. auto.
Qed.

Lemma explained_step w a :
  consistent w -> explained w -> explained (step w a).
Proof.
  intros Hc He. destruct a as [[u|u d]|x ev|h]; simpl.
  - rewrite get_unfold. by apply explained_after_call.
  - rewrite post_unfold. destruct (JSON.stringify (heap_of w) d); simpl.
    + by apply explained_after_call.
    + assumption.
  - by apply explained_deliver.
  - assumption.
Qed.

Lemma explained_run acts w :
  consistent w -> explained w -> explained (run acts w).
Proof.
  revert w. induction acts as [|a acts IH]; intros w Hc He; simpl.
  - assumption.
  - apply IH; [by apply consistent_step | by apply explained_step].
Qed.

Lemma reachable_explained h acts : explained (run acts (initial h)).
Proof.
  apply explained_run; [apply consistent_initial | apply explained_initial].
Qed.

(** In a reachable world a promise has a request object. *)
Lemma reachable_promise_has_request h acts p st :
  state_of p (run acts (initial h)) = Some st ->
  exists o, xhrs (run acts (initial h)) !! p = Some o /\
            st = promise_of o.
Proof.
  intros Hp. pose proof (reachable_consistent h acts) as Hc.
  pose proof (reachable_explained h acts) as He.
  unfold state_of in Hp.
  destruct (xhrs (run acts (initial h)) !! p) as [o|] eqn:Hx.
  - exists o. split; [reflexivity|]. destruct (He p o Hx) as [_ Hp'].
    congruence.
  - apply lookup_lt_Some in Hp. apply lookup_ge_None in Hx.
    rewrite (same_length _ Hc) in Hp. lia.
Qed.

(** ** What a call does, and what it does not *)






(** X4. A body [post] sends is always valid JSON: whatever [data] was, the
    text on the wire is one [JSON.parse] reads. *)
Theorem post_sends_valid_json u d w p w1 r text :
  post u d w = (Return p, w1) ->
  last (wire w1) = Some r ->
  body r = Some text ->
  exists j, JSON.parse text = Return j.
Proof.
  rewrite post_unfold.
  destruct (JSON.stringify (heap_of w) d) as [t|e] eqn:Es; [|discriminate].
  intros [= <- <-]. simpl. rewrite last_snoc. intros [= <-]. simpl.
  intros ->. eapply JSONFacts.parse_stringify, Es.
Qed.

(** X4 for a string with a quotation mark, a line feed and a surrogate on
    its own. *)
Lemma post_sends_valid_json_example :
  exists j,
    JSON.parse (34 :: 97 :: 92 :: 34 :: 92 :: 110 :: utf16 "\ud83d" ++ [34])
    = Return j.
Proof.
  apply (post_sends_valid_json "https://example.com/alice"
           (JSON.VString [97; 34; 10; 55357]) (initial []) 0
           (snd (post "https://example.com/alice"
                   (JSON.VString [97; 34; 10; 55357]) (initial [])))
           {| method := "POST"; url := "https://example.com/alice";
              headers := [("Content-Type", "application/json")];
              body := Some (34 :: 97 :: 92 :: 34 :: 92 :: 110 ::
                            utf16 "\ud83d" ++ [34]) |}
           (34 :: 97 :: 92 :: 34 :: 92 :: 110 :: utf16 "\ud83d" ++ [34]));
    vm_compute; reflexivity.
Defined.

(** ** What holds in every reachable world *)


(** X6. A fulfilled promise carries the answer to its own request: the
    request object of the call is done, its status is the [status] of the
    value, and its response text parses to the [data] of the value. *)
Theorem fulfilled_value_is_the_own_response h acts p r :
  state_of p (run acts (initial h)) = Some (Fulfilled r) ->
  exists o,
    xhrs (run acts (initial h)) !! p = Some o /\
    XHR.readyState o = XHR.DONE /\
    XHR.status o = status r /\
    JSON.parse (XHR.response o) = Return (data r).
Proof.
  intros Hp.
  destruct (reachable_promise_has_request h acts p _ Hp) as (o & Hx & Ho).
  destruct (reachable_explained h acts p o Hx) as [Hr _].
  exists o. split; [assumption|].
  unfold promise_of, completion in Ho.
  destruct (XHR.send_flag o); [discriminate|].
  destruct (JSON.parse (XHR.response o)) as [d|]; [|discriminate].
  injection Ho as ->. auto.
Qed.

(** X6 with two requests answered in the reverse order of the calls. *)
Lemma fulfilled_value_is_the_own_response_example :
  exists o,
    xhrs (run [Call (Get "https://example.com/alice");
               Call (Get "https://example.com/bob");
               Deliver 1 (Load 404 (json_text "null"));
               Deliver 0 (Load 200 (json_text "{'id':'alice','score':5}"))]
            (initial [])) !! 0%nat = Some o /\
    XHR.readyState o = XHR.DONE /\
    XHR.status o = status {| status := 200; data := alice |} /\
    JSON.parse (XHR.response o)
      = Return (data {| status := 200; data := alice |}).
Proof.
  apply (fulfilled_value_is_the_own_response []
           [Call (Get "https://example.com/alice");
            Call (Get "https://example.com/bob");
            Deliver 1 (Load 404 (json_text "null"));
            Deliver 0 (Load 200 (json_text "{'id':'alice','score':5}"))]
           0 {| status := 200; data := alice |}).
  vm_compute; reflexivity.
Defined.

(** X7. The only ways for a promise to be pending: its request is still in
    flight, or it is done and its response text does not parse (the text
    is empty after a network error, a timeout or an abort). *)
Theorem pending_promise_is_in_flight_or_unparsed h acts p :
  state_of p (run acts (initial h)) = Some Pending ->
  exists o,
    xhrs (run acts (initial h)) !! p = Some o /\
    (XHR.send_flag o = true \/
     (XHR.readyState o = XHR.DONE /\
      JSON.parse (XHR.response o) = Throw SyntaxError)).
Proof.
  intros Hp.
  destruct (reachable_promise_has_request h acts p _ Hp) as (o & Hx & Ho).
  destruct (reachable_explained h acts p o Hx) as [Hr _].
  exists o. split; [assumption|].
  unfold promise_of, completion in Ho.
  destruct (XHR.send_flag o); [by left|]. right. split; [assumption|].
  destruct (JSON.parse (XHR.response o)) as [d|e] eqn:Ep; [discriminate|].
  by rewrite (JSONFacts.parse_throws _ _ Ep).
Qed.

(** X7 after a timeout. *)
Lemma pending_promise_after_timeout :
  exists o,
    xhrs (run [Call (Get "https://example.com/alice"); Deliver 0 Timeout]
            (initial [])) !! 0%nat = Some o /\
    (XHR.send_flag o = true \/
     (XHR.readyState o = XHR.DONE /\
      JSON.parse (XHR.response o) = Throw SyntaxError)).
Proof.
  apply (pending_promise_is_in_flight_or_unparsed []
           [Call (Get "https://example.com/alice"); Deliver 0 Timeout] 0).
  vm_compute; reflexivity.
Defined.

(** ** Events, in any world *)

(** Running a handler changes promises only, and only by settling one. *)
Lemma call_effect c w :
  xhrs (snd (call c w)) = xhrs w /\
  wire (snd (call c w)) = wire w /\
  heap_of (snd (call c w)) = heap_of w /\
  uncaught (snd (call c w)) = uncaught w /\
  (promises (snd (call c w)) = promises w \/
   exists q v, promises (snd (call c w))
               = promises (settle q (Fulfilled v) w)).
Proof.
  destruct c as [res http|res http]; unfold call, read, mbind, M_bind, lift,
    call_resolve, modify;
    (destruct (xhrs w !! http) as [o|]; simpl; [|by auto 6]);
    (destruct (JSON.parse (XHR.response o)) as [d|e]; simpl; [|by auto 6]);
    destruct (settle_rest (resolved_promise res)
                (Fulfilled {| status := XHR.status o; data := d |}) w)
      as (-> & -> & -> & ->); eauto 10.
Qed.

(** A delivery to a request in flight finishes the request object; it
    touches no other request object, nor the wire, nor the heap. *)
Lemma deliver_in_flight x ev w o :
  xhrs w !! x = Some o -> XHR.send_flag o = true ->
  exists s b, xhrs (deliver x ev w) = <[x := finish o s b]> (xhrs w).
Proof.
  intros Hx Hs. unfold deliver. rewrite Hx, Hs.
  destruct ev as [s b| | |]; try (by exists 0%Z, []).
  exists s, b. destruct (XHR.onload o) as [c|]; [|reflexivity].
  pose proof (call_effect c (set_xhrs <[x:=finish o s b]> w)) as (Hc & _).
  destruct (call c (set_xhrs <[x:=finish o s b]> w)) as [[]]; simpl in *;
    exact Hc.
Qed.

Lemma deliver_rest x ev w :
  wire (deliver x ev w) = wire w /\ heap_of (deliver x ev w) = heap_of w /\
  (promises (deliver x ev w) = promises w \/
   exists q v, promises (deliver x ev w)
               = promises (settle q (Fulfilled v) w)).
Proof.
  unfold deliver. destruct (xhrs w !! x) as [o|]; [|by auto].
  destruct (XHR.send_flag o); [|by auto].
  destruct ev as [s b| | |]; try (by auto).
  destruct (XHR.onload o) as [c|]; [|by auto].
  pose proof (call_effect c (set_xhrs <[x:=finish o s b]> w))
    as (_ & Hw & Hh & _ & Hp).
  assert (forall q v, promises (settle q (Fulfilled v)
                                  (set_xhrs <[x:=finish o s b]> w))
                      = promises (settle q (Fulfilled v) w)) as Hset.
  { intros q v. by rewrite !settle_promises. }
  destruct (call c (set_xhrs <[x:=finish o s b]> w)) as [[]]; simpl in *;
    (split; [assumption|]; split; [assumption|]);
    (destruct Hp as [Hp|(q & v & Hp)];
     [by left | right; exists q, v; by rewrite Hp, Hset]).
Qed.

(** X8. A request ends once: after its first event, whatever it was, a
    further event for the same request changes nothing, so the handler
    runs at most once and a promise is resolved at most once. *)
Theorem second_event_is_ignored x ev ev' w :
  deliver x ev' (deliver x ev w) = deliver x ev w.
Proof.
  apply deliver_idle. intros o' Ho'.
  destruct (xhrs w !! x) as [o|] eqn:Hx.
  2: { rewrite deliver_idle in Ho' by (intros ? ?; congruence). congruence. }
  destruct (XHR.send_flag o) eqn:Hs.
  2: { rewrite deliver_idle in Ho' by (intros ? ?; congruence). congruence. }
  destruct (deliver_in_flight x ev w o Hx Hs) as (s & b & E).
  rewrite E, list_lookup_insert_eq in Ho' by (eapply lookup_lt_Some, Hx).
  by injection Ho' as <-.
Qed.

(** ** Promises over time *)

Lemma settle_keeps p st q s w :
  promises w !! p = Some st -> st <> Pending ->
  promises (settle q s w) !! p = Some st.
Proof.
  intros Hp Hst. rewrite settle_promises.
  destruct (promises w !! q) as [[]|] eqn:Hq; try assumption.
  rewrite list_lookup_insert_ne; [assumption|]. congruence.
Qed.

Lemma step_keeps p st w a :
  state_of p w = Some st -> st <> Pending -> state_of p (step w a) = Some st.
Proof.
  unfold state_of. intros Hp Hst. destruct a as [[u|u d]|x ev|h]; simpl.
  - rewrite get_unfold. simpl. rewrite lookup_snoc_lt; [assumption|].
    eapply lookup_lt_Some, Hp.
  - rewrite post_unfold. destruct (JSON.stringify (heap_of w) d); simpl;
      [|assumption].
    rewrite lookup_snoc_lt; [assumption|]. eapply lookup_lt_Some, Hp.
  - destruct (deliver_rest x ev w) as (_ & _ & [->|(q & v & ->)]);
      [assumption | by apply settle_keeps].
  - assumption.
Qed.

(** X9. A settled promise keeps its state: once a promise is fulfilled with
    a value, no later call, event or heap change alters the state or the
    value. *)
Theorem settled_promise_is_stable p st w acts :
  state_of p w = Some st -> st <> Pending ->
  state_of p (run acts w) = Some st.
Proof.
  intros Hp Hst. revert w Hp.
  induction acts as [|a acts IH]; intros w Hp; simpl; [assumption|].
  apply IH. by apply step_keeps.
Qed.

(** X9 for a promise fulfilled with [{ status: 200, data: null }], then a
    second answer to the same request, other calls and a heap change. *)
Lemma settled_promise_is_stable_example :
  state_of 0
    (run [Deliver 0 (Load 500 (json_text "{'Error':'bad score'}"));
          Call (Post "https://example.com/alice" JSON.VNull);
          Deliver 1 (Load 201 (json_text "[]")); Mutate []]
       (run [Call (Get "https://example.com/alice");
             Deliver 0 (Load 200 (json_text "null"))] (initial [])))
  = Some (Fulfilled {| status := 200; data := JNull |}).
Proof.
  apply (settled_promise_is_stable 0
           (Fulfilled {| status := 200; data := JNull |})
           (run [Call (Get "https://example.com/alice");
                 Deliver 0 (Load 200 (json_text "null"))] (initial []))
           [Deliver 0 (Load 500 (json_text "{'Error':'bad score'}"));
            Call (Post "https://example.com/alice" JSON.VNull);
            Deliver 1 (Load 201 (json_text "[]")); Mutate []]).
  - vm_compute; reflexivity.
  - discriminate.
Defined.

(** ** Answers in any order *)

(** What a delivery does to its own promise and request object depends on
    these two only. *)
Lemma deliver_local x ev w w' :
  consistent w -> consistent w' ->
  xhrs w !! x = xhrs w' !! x -> promises w !! x = promises w' !! x ->
  promises (deliver x ev w) !! x = promises (deliver x ev w') !! x /\
  xhrs (deliver x ev w) !! x = xhrs (deliver x ev w') !! x /\
  exists es, uncaught (deliver x ev w) = uncaught w ++ es /\
             uncaught (deliver x ev w') = uncaught w' ++ es.
Proof.
  intros Hc Hc' Hx Hp.
  destruct (xhrs w !! x) as [o|] eqn:Ho.
  2: { rewrite !deliver_idle by (intros ? ?; congruence).
       split; [assumption|]. split; [congruence|].
       exists []. by rewrite !app_nil_r. }
  symmetry in Hx.
  destruct (XHR.send_flag o) eqn:Hs.
  2: { rewrite !deliver_idle by (intros ? ?; congruence).
       split; [assumption|]. split; [congruence|].
       exists []. by rewrite !app_nil_r. }
  assert (x < length (xhrs w))%nat as Hlt by (eapply lookup_lt_Some, Ho).
  assert (x < length (xhrs w'))%nat as Hlt' by (eapply lookup_lt_Some, Hx).
  destruct ev as [s b| | |].
  - rewrite (deliver_load _ _ _ _ _ Ho Hs (own_handler _ Hc _ _ Ho)).
    rewrite (deliver_load _ _ _ _ _ Hx Hs (own_handler _ Hc' _ _ Hx)).
    cbv zeta. destruct (JSON.parse b) as [d|e].
    + destruct (settle_rest x (Fulfilled {| status := s; data := d |})
                  (set_xhrs <[x:=finish o s b]> w)) as (_ & -> & _ & ->).
      destruct (settle_rest x (Fulfilled {| status := s; data := d |})
                  (set_xhrs <[x:=finish o s b]> w')) as (_ & -> & _ & ->).
      rewrite !settle_promises. simpl.
      rewrite !list_lookup_insert_eq by assumption.
      split; [|split; [reflexivity | exists []; by rewrite !app_nil_r]].
      rewrite <- Hp.
      destruct (promises w !! x) as [[]|] eqn:Hpx; try congruence.
      assert (x < length (promises w))%nat by (eapply lookup_lt_Some, Hpx).
      assert (x < length (promises w'))%nat
        by (eapply lookup_lt_Some; symmetry; exact Hp).
      by rewrite !list_lookup_insert_eq.
    + simpl. rewrite !list_lookup_insert_eq by assumption. eauto.
  - rewrite !(deliver_failure _ NetworkError _ o) by (assumption || discriminate).
    simpl. rewrite !list_lookup_insert_eq by assumption.
    split; [assumption|]. split; [reflexivity|].
    exists []. by rewrite !app_nil_r.
  - rewrite !(deliver_failure _ Timeout _ o) by (assumption || discriminate).
    simpl. rewrite !list_lookup_insert_eq by assumption.
    split; [assumption|]. split; [reflexivity|].
    exists []. by rewrite !app_nil_r.
  - rewrite !(deliver_failure _ Aborted _ o) by (assumption || discriminate).
    simpl. rewrite !list_lookup_insert_eq by assumption.
    split; [assumption|]. split; [reflexivity|].
    exists []. by rewrite !app_nil_r.
Qed.


(** X10. Answers to different requests may arrive in either order: the
    promises and the request objects end up the same, and the same
    exceptions are left uncaught (in the order of arrival). *)
Theorem deliveries_commute h acts x y ev ev' :
  x <> y ->
  promises (deliver y ev' (deliver x ev (run acts (initial h))))
    = promises (deliver x ev (deliver y ev' (run acts (initial h)))) /\
  xhrs (deliver y ev' (deliver x ev (run acts (initial h))))
    = xhrs (deliver x ev (deliver y ev' (run acts (initial h)))) /\
  uncaught (deliver y ev' (deliver x ev (run acts (initial h))))
    ≡ₚ uncaught (deliver x ev (deliver y ev' (run acts (initial h)))).
Proof.
  intros Hxy. set (w := run acts (initial h)).
  pose proof (reachable_consistent h acts) as Hc. fold w in Hc.
  destruct (deliver_effect x ev w Hc) as (Hcx & _ & _ & Hfx).
  destruct (deliver_effect y ev' w Hc) as (Hcy & _ & _ & Hfy).
  destruct (deliver_effect y ev' (deliver x ev w) Hcx) as (_ & _ & _ & Hfxy).
  destruct (deliver_effect x ev (deliver y ev' w) Hcy) as (_ & _ & _ & Hfyx).
  destruct (Hfx y (not_eq_sym Hxy)) as [Hpx_y Hxx_y].
  destruct (Hfy x Hxy) as [Hpy_x Hxy_x].
  destruct (deliver_local x ev w (deliver y ev' w) Hc Hcy
              (eq_sym Hxy_x) (eq_sym Hpy_x)) as (Lp & Lx & es & E1 & E2).
  destruct (deliver_local y ev' w (deliver x ev w) Hc Hcx
              (eq_sym Hxx_y) (eq_sym Hpx_y)) as (Lp' & Lx' & es' & E1' & E2').
  split; [|split].
  - apply list_eq. intros i.
    destruct (decide (i = x)) as [->|Hix].
    + destruct (Hfxy x Hxy) as [-> _]. exact Lp.
    + destruct (decide (i = y)) as [->|Hiy].
      * destruct (Hfyx y (not_eq_sym Hxy)) as [-> _]. by symmetry.
      * destruct (Hfxy i Hiy) as [-> _]. destruct (Hfyx i Hix) as [-> _].
        destruct (Hfx i Hix) as [-> _]. destruct (Hfy i Hiy) as [-> _].
        reflexivity.
  - apply list_eq. intros i.
    destruct (decide (i = x)) as [->|Hix].
    + destruct (Hfxy x Hxy) as [_ ->]. exact Lx.
    + destruct (decide (i = y)) as [->|Hiy].
      * destruct (Hfyx y (not_eq_sym Hxy)) as [_ ->]. by symmetry.
      * destruct (Hfxy i Hiy) as [_ ->]. destruct (Hfyx i Hix) as [_ ->].
        destruct (Hfx i Hix) as [_ ->]. destruct (Hfy i Hiy) as [_ ->].
        reflexivity.
  - rewrite E2', E1, E2, E1', <- !app_assoc.
    apply Permutation_app_head, Permutation_app_comm.
Qed.

(** X10 for two requests, one answered with JSON and one with a page. *)
Lemma deliveries_commute_example :
  promises (deliver 1 (Load 502 (utf16 "<html>"))
              (deliver 0 (Load 200 (json_text "{'id':'alice','score':5}"))
                 (run [Call (Get "https://example.com/alice");
                       Call (Get "https://example.com/bob")] (initial []))))
    = promises (deliver 0 (Load 200 (json_text "{'id':'alice','score':5}"))
                  (deliver 1 (Load 502 (utf16 "<html>"))
                     (run [Call (Get "https://example.com/alice");
                           Call (Get "https://example.com/bob")]
                        (initial [])))) /\
  xhrs (deliver 1 (Load 502 (utf16 "<html>"))
          (deliver 0 (Load 200 (json_text "{'id':'alice','score':5}"))
             (run [Call (Get "https://example.com/alice");
                   Call (Get "https://example.com/bob")] (initial []))))
    = xhrs (deliver 0 (Load 200 (json_text "{'id':'alice','score':5}"))
              (deliver 1 (Load 502 (utf16 "<html>"))
                 (run [Call (Get "https://example.com/alice");
                       Call (Get "https://example.com/bob")]
                    (initial [])))) /\
  uncaught (deliver 1 (Load 502 (utf16 "<html>"))
              (deliver 0 (Load 200 (json_text "{'id':'alice','score':5}"))
                 (run [Call (Get "https://example.com/alice");
                       Call (Get "https://example.com/bob")] (initial []))))
    ≡ₚ uncaught (deliver 0 (Load 200 (json_text "{'id':'alice','score':5}"))
                   (deliver 1 (Load 502 (utf16 "<html>"))
                      (run [Call (Get "https://example.com/alice");
                            Call (Get "https://example.com/bob")]
                         (initial [])))).
Proof.
  apply (deliveries_commute []
           [Call (Get "https://example.com/alice");
            Call (Get "https://example.com/bob")]
           0 1 (Load 200 (json_text "{'id':'alice','score':5}"))
           (Load 502 (utf16 "<html>"))).
  discriminate.
Defined.

(** ** The wire *)

Lemma step_wire w a :
  wire (step w a) = wire w \/
  exists r, wire (step w a) = wire w ++ [r] /\ api_request r /\
            length (promises (step w a)) = S (length (promises w)).
Proof.
  destruct a as [[u|u d]|x ev|h]; simpl.
  - rewrite get_unfold. right. eexists. split; [reflexivity|].
    split; [left; by repeat split|]. simpl. rewrite length_app. simpl. lia.
  - rewrite post_unfold. destruct (JSON.stringify (heap_of w) d); simpl.
    + right. eexists. split; [reflexivity|].
      split; [right; by repeat split|]. rewrite length_app. simpl. lia.
    + by left.
  - left. apply deliver_rest.
  - by left.
Qed.


Lemma wire_grows acts : forall w, wire w `prefix_of` wire (run acts w).
Proof.
  induction acts as [|a acts IH]; intros w; simpl; [reflexivity|].
  etrans; [|apply IH].
  destruct (step_wire w a) as [->|(r & -> & _)];
    [reflexivity | by apply prefix_app_r].
Qed.

(** X12. What [post] sends is fixed at the call: the body is the
    serialisation of [data] as it was then, and it stays on the wire as
    sent whatever happens later, changes to [data] included. *)
Theorem posted_body_is_fixed_at_the_call w u d text acts :
  JSON.stringify (heap_of w) d = Return text ->
  wire (run acts (snd (post u d w))) !! length (wire w) =
    Some {| method := "POST"; url := u;
            headers := [("Content-Type", "application/json")];
            body := text |}.
Proof.
  intros Hs. eapply prefix_lookup_Some; [|apply wire_grows].
  rewrite post_unfold, Hs. simpl. apply lookup_snoc.
Qed.

(** X12 with [data] the object [{ score: 5 }], replaced in the heap by an
    array after the call. *)
Lemma posted_body_is_fixed_example :
  wire (run [Mutate [JSON.OArray []];
             Deliver 0 (Load 200 (json_text "{'id':'alice','score':5}"))]
          (snd (post "https://example.com/alice" (JSON.VObject 0)
                  (initial score_heap))))
    !! length (wire (initial score_heap)) =
    Some {| method := "POST"; url := "https://example.com/alice";
            headers := [("Content-Type", "application/json")];
            body := Some (json_text "{'score':5}") |}.
Proof.
  apply (posted_body_is_fixed_at_the_call (initial score_heap)
           "https://example.com/alice" (JSON.VObject 0)
           (Some (json_text "{'score':5}"))
           [Mutate [JSON.OArray []];
            Deliver 0 (Load 200 (json_text "{'id':'alice','score':5}"))]).
  vm_compute; reflexivity.
Defined.

(** ** Uncaught exceptions *)

Lemma deliver_uncaught x ev w :
  consistent w ->
  exists es, uncaught (deliver x ev w) = uncaught w ++ es /\
             Forall (fun e => e = SyntaxError) es.
Proof.
  intros Hc.
  assert (uncaught w = uncaught w ++ [] /\
          Forall (fun e => e = SyntaxError) []) as Hnil.
  { by rewrite app_nil_r. }
  destruct (xhrs w !! x) as [o|] eqn:Hx.
  2: { rewrite deliver_idle by (intros ? ?; congruence). eauto. }
  destruct (XHR.send_flag o) eqn:Hs.
  2: { rewrite deliver_idle by (intros ? ?; congruence). eauto. }
  destruct ev as [s b| | |].
  2-4: rewrite (deliver_failure _ _ _ _ Hx Hs) by discriminate; simpl; eauto.
  rewrite (deliver_load _ _ _ _ _ Hx Hs (own_handler _ Hc _ _ Hx)). cbv zeta.
  destruct (JSON.parse b) as [d|e] eqn:Ep.
  - destruct (settle_rest x (Fulfilled {| status := s; data := d |})
                (set_xhrs <[x:=finish o s b]> w)) as (_ & _ & _ & ->).
    simpl. eauto.
  - simpl. exists [e]. split; [reflexivity|].
    rewrite (JSONFacts.parse_throws _ _ Ep). by repeat constructor.
Qed.

(** X13. The only exception the response handling ever leaves uncaught is
    the [SyntaxError] of a response text that is not JSON. *)
Theorem uncaught_exceptions_are_syntax_errors h acts :
  Forall (fun e => e = SyntaxError) (uncaught (run acts (initial h))).
Proof.
  assert (forall w, consistent w ->
            Forall (fun e => e = SyntaxError) (uncaught w) ->
            Forall (fun e => e = SyntaxError) (uncaught (run acts w))) as H.
  { induction acts as [|a acts IH]; intros w Hc Hf; simpl; [assumption|].
    apply IH; [by apply consistent_step|].
    destruct a as [[u|u d]|x ev|h']; simpl.
    - by rewrite get_unfold.
    - rewrite post_unfold. by destruct (JSON.stringify (heap_of w) d).
    - destruct (deliver_uncaught x ev w Hc) as (es & -> & Hes).
      apply Forall_app. by split.
    - assumption. }
  apply H; [apply consistent_initial | constructor].
Qed.

(** ** The exact round trip of JSON data *)

Module DataFacts.
Import JSON JSONFacts Data.

(** *** Numbers *)











Lemma NumberToString_unsigned_zero d :
  NumberToString (unsigned_zero d) = NumberToString d.
Proof.
  unfold unsigned_zero. destruct (mant d =? 0) eqn:E; [|reflexivity].
  apply N.eqb_eq in E. unfold NumberToString. rewrite E. reflexivity.
Qed.

(** *** Texts read as a given value *)











(** *** Keys in order *)





(** *** What [represents] says of arrays and objects *)






(** *** The serialiser on JSON data *)





End DataFacts.

(** *** The round trip through [post] and [get] *)







